(** * Bundle routing through waypoints: a shallow embedding

    This development embeds [gdsfactory/routing/get_bundle_from_waypoints.py]
    and states the properties of its routing kernel.

    Conventions of the embedding.
    - Python numbers (coordinates, offsets, separations) are exact rationals
      [Q]; the tolerance [1e-5] is the rational [1 # 100000].  Rounding of
      binary floating point is not part of the model.
    - A Python exception is an [Error e] result; the constructor of [e] tells
      which [raise] (or which failing built-in operation) produced it.
    - [Port] objects are mutable and shared with the caller: they live in a
      store indexed by addresses, and a bundle is a list of addresses.  The
      angle of a port object is the number the caller stored in it, an
      integer or not; the entry point replaces it by [int(angle) % 360].
      The routing kernel only reads ports, receives them by value, and
      reads their orientation as an integer. *)

From Stdlib Require Import List ZArith QArith Qabs Lia Lqa Bool PeanoNat Permutation.
Import ListNotations.

Set Implicit Arguments.

(** ** Results and exceptions *)

Inductive error : Type :=
| PortCountMismatch        (* ValueError: Number of start ports should match number of end ports *)
| AmbiguousSeparation      (* ValueError: Expected offset = 0 at either start or end of route. *)
| SegmentNotManhattan      (* ValueError: Segment should be manhattan, got ... *)
| NonManhattanIntersection (* ValueError: s1 / s2 should be h/v or v/h. *)
| UnpackError              (* ValueError: not enough values to unpack *)
| IndexError               (* list index out of range *)
| KeyError                 (* missing dictionary key *)
| TypeError                (* arithmetic on None *)
| InvalidPath              (* a waypoint segment that is neither horizontal nor vertical *)
| External                 (* an exception raised by a collaborator outside this module *).

Inductive result (A : Type) : Type :=
| Ok (a : A)
| Error (e : error).

Arguments Ok {A} a.
Arguments Error {A} e.

Definition bind {A B : Type} (r : result A) (k : A -> result B) : result B :=
  match r with
  | Ok a => k a
  | Error e => Error e
  end.

Declare Scope result_scope.
Delimit Scope result_scope with result.
Notation "x <- r ;; k" := (bind r (fun x => k))
  (at level 61, r at next level, right associativity) : result_scope.
Notation "' pat <- r ;; k" := (bind r (fun x => match x with pat => k end))
  (at level 61, pat pattern, r at next level, right associativity) : result_scope.
Open Scope result_scope.

Definition is_ok {A : Type} (r : result A) : bool :=
  match r with Ok _ => true | Error _ => false end.

(** [[f(x) for x in l]] where [f] may raise: the first exception aborts. *)
Fixpoint mapM {A B : Type} (f : A -> result B) (l : list A) : result (list B) :=
  match l with
  | [] => Ok []
  | a :: l' => b <- f a ;; bs <- mapM f l' ;; Ok (b :: bs)
  end.

(** A [for] loop threading a state, aborted by the first exception. *)
Fixpoint foldM {A S : Type} (f : S -> A -> result S) (l : list A) (s : S) : result S :=
  match l with
  | [] => Ok s
  | a :: l' => s' <- f s a ;; foldM f l' s'
  end.

(** [l[i]] for [i >= 0]. *)
Definition index {A : Type} (l : list A) (i : nat) : result A :=
  match nth_error l i with
  | Some a => Ok a
  | None => Error IndexError
  end.

(** [l[-k]] for [k >= 1]. *)
Definition index_neg {A : Type} (l : list A) (k : nat) : result A :=
  if (k <=? length l)%nat then index l (length l - k) else Error IndexError.

(** [enumerate(l)]. *)
Definition enumerate {A : Type} (l : list A) : list (nat * A) :=
  combine (seq 0 (length l)) l.

(** [l[:-2]] and [l[-2:]]. *)
Definition all_but_last2 {A : Type} (l : list A) : list A :=
  firstn (length l - 2) l.

Definition last2 {A : Type} (l : list A) : list A :=
  skipn (length l - 2) l.

(** ** Numbers, points and segments *)

Open Scope Q_scope.

Definition tol : Q := 1 # 100000.

Definition Qltb (x y : Q) : bool :=
  match x ?= y with Lt => true | _ => false end.

(** [np.sign]. *)
Definition Qsign (x : Q) : Q := inject_Z (Z.sgn (Qnum x)).

Definition point : Type := (Q * Q)%type.
Definition segment : Type := (point * point)%type.

Definition px (p : point) : Q := fst p.
Definition py (p : point) : Q := snd p.

Definition _is_vertical (s : segment) : bool :=
  let '(p0, p1) := s in Qltb (Qabs (px p0 - px p1)) tol.

Definition _is_horizontal (s : segment) : bool :=
  let '(p0, p1) := s in Qltb (Qabs (py p0 - py p1)) tol.

(** Returns [None] (Python's implicit return) on a segment that is neither. *)
Definition _segment_sign (s : segment) : option Q :=
  let '(p0, p1) := s in
  if _is_vertical s then Some (Qsign (py p1 - py p0))
  else if _is_horizontal s then Some (Qsign (px p1 - px p0))
  else None.

(** ** Ports *)

(** Modelled from the spec: the [Port] class is not part of the sources at
    hand.  Section 3 of the specification gives a port a position, an
    orientation and a width; the code reads the position as [midpoint],
    [position], [x] and [y], and the orientation as [orientation] and
    [angle].  The kernel reads orientations that are integers: the entry
    point stores [int(p.angle) % 360] in every port before it calls it. *)
Record Port : Type := mkPort {
  midpoint : point;
  orientation : Z;
  width : Q
}.

Definition position (p : Port) : point := midpoint p.
Definition angle (p : Port) : Z := orientation p.
Definition x (p : Port) : Q := px (midpoint p).
Definition y (p : Port) : Q := py (midpoint p).

(** [a in [v1, v2]] on orientations. *)
Definition angle_in (a : Z) (l : list Z) : bool := existsb (Z.eqb a) l.

(** ** The routing kernel *)

Definition translate (s : segment) (dp : point) : segment :=
  let '(p0, p1) := s in
  ((px p0 + px dp, py p0 + py dp), (px p1 + px dp, py p1 + py dp)).

Definition snap_route_to_end_point_x (route : list point) (x : Q) : result (list point) :=
  match map py (last2 route) with
  | [y1; y2] => Ok (all_but_last2 route ++ [(x, y1); (x, y2)])
  | _ => Error UnpackError
  end.

Definition snap_route_to_end_point_y (route : list point) (y : Q) : result (list point) :=
  match map px (last2 route) with
  | [x1; x2] => Ok (all_but_last2 route ++ [(x1, y); (x2, y)])
  | _ => Error UnpackError
  end.

(** Nested helper [_displace_segment_copy]; [sign_seg] is [None] only on a
    segment that reaches the final [raise]. *)
Definition _displace_segment_copy (s : segment) (a sh sv : Q) : result segment :=
  let sign_seg := _segment_sign s in
  if _is_horizontal s then
    match sign_seg with
    | Some sg => Ok (translate s (0, sh * sg * a))
    | None => Error TypeError
    end
  else if _is_vertical s then
    match sign_seg with
    | Some sg => Ok (translate s (sv * sg * a, 0))
    | None => Error TypeError
    end
  else Error SegmentNotManhattan.

Definition _displace_segment_copy_group1 (s : segment) (a : Q) : result segment :=
  _displace_segment_copy s a 1 (-1).

Definition _make_segment : segment -> Q -> result segment :=
  _displace_segment_copy_group1.

(** Nested helper [_intersection]: [(sv[0][0], sh[0][1])]. *)
Definition _intersection (s1 s2 : segment) : result point :=
  if _is_horizontal s1 && _is_vertical s2 then Ok (px (fst s2), py (fst s1))
  else if _is_horizontal s2 && _is_vertical s1 then Ok (px (fst s1), py (fst s2))
  else Error NonManhattanIntersection.

(** [if separation:] holds for a number other than zero. *)
Definition supplied (separation : option Q) : option Q :=
  match separation with
  | Some sep => if Qeq_bool sep 0 then None else Some sep
  | None => None
  end.

(** Lines 208-223: the mid-path offsets.  The indexed reads
    [offsets_start[1]] and [offsets_start[-2]] sit inside the
    comprehensions and are evaluated once per element. *)
Definition mid_offsets (separation : option Q) (offsets_start : list Q) : result (list Q) :=
  match supplied separation with
  | Some sep =>
      o_first <- index offsets_start 0 ;;
      if Qeq_bool o_first 0 then
        mapM (fun io : nat * Q =>
                o1 <- index offsets_start 1 ;;
                Ok (Qsign o1 * sep * inject_Z (Z.of_nat (fst io))))
             (enumerate offsets_start)
      else
        o_last <- index_neg offsets_start 1 ;;
        if Qeq_bool o_last 0 then
          offsets_mid <- mapM (fun io : nat * Q =>
                                 o2 <- index_neg offsets_start 2 ;;
                                 Ok (Qsign o2 * sep * inject_Z (Z.of_nat (fst io))))
                              (enumerate offsets_start) ;;
          Ok (rev offsets_mid)
        else Error AmbiguousSeparation
  | None => Ok offsets_start
  end.

(** Lines 225-228: the sign flip for bundles facing 90 or 270 degrees. *)
Definition flip_offsets (start_angle : Z) (offsets : list Q) : list Q :=
  if angle_in start_angle [90; 270]%Z then map Qopp offsets else offsets.

(** Body of the inner loop (lines 282-307) for port [i]; the loop state is
    [(prev_seg_sep, route)]. *)
Definition route_step (way_segments : list segment) (ports2 : list Port)
    (end_angle : Z) (offsets_mid : list Q) (i : nat)
    (st : Q * list point) (jseg : nat * segment) : result (Q * list point) :=
  let '(prev_seg_sep, route) := st in
  let '(j, seg) := jseg in
  seg_sep <- (if (j =? 0)%nat then Ok prev_seg_sep else index offsets_mid i) ;;
  d_seg <- _make_segment seg seg_sep ;;
  start_point <- (if (j =? 0)%nat then Ok (fst d_seg)
                  else
                    prev_seg <- index way_segments (j - 1) ;;
                    tmp_seg <- _make_segment prev_seg prev_seg_sep ;;
                    _intersection d_seg tmp_seg) ;;
  let route := route ++ [start_point] in
  route <- (if (j =? length way_segments - 1)%nat then
              p2 <- index ports2 i ;;
              let end_point := position p2 in
              let route := route ++ [end_point] in
              if angle_in end_angle [0; 180]%Z
              then snap_route_to_end_point_y route (py end_point)
              else snap_route_to_end_point_x route (px end_point)
            else Ok route) ;;
  Ok (seg_sep, route).

(** One iteration of the outer loop (lines 278-308). *)
Definition port_route (way_segments : list segment) (ports2 : list Port)
    (end_angle : Z) (offsets_start offsets_mid : list Q) (i : nat) : result (list point) :=
  prev_seg_sep <- index offsets_start i ;;
  st <- foldM (route_step way_segments ports2 end_angle offsets_mid i)
              (enumerate way_segments) (prev_seg_sep, []) ;;
  Ok (snd st).

(** [route[0] = start_point.midpoint] (lines 310-311). *)
Definition set_first (route : list point) (start_point : Port) : result (list point) :=
  match route with
  | [] => Error IndexError
  | _ :: rest => Ok (midpoint start_point :: rest)
  end.

Section Kernel.

(** Collaborators from [gdsfactory.routing.utils] and
    [gdsfactory.routing.manhattan], which are not part of the sources at
    hand.  They are parameters of the kernel; every result below holds for
    whatever they compute. *)
Variable get_list_ports_angle : list Port -> result Z.
Variable remove_flat_angles : list point -> result (list point).

Definition get_ports_x_or_y_distances (list_ports : list Port) (ref_point : point)
  : result (list Q) :=
  match list_ports with
  | [] => Ok []
  | _ :: _ =>
      angle <- get_list_ports_angle list_ports ;;
      let x0 := px ref_point in
      let y0 := py ref_point in
      if angle_in angle [0; 180]%Z
      then Ok (map (fun p => y p - y0) list_ports)
      else Ok (map (fun p => x p - x0) list_ports)
  end.

Definition _generate_manhattan_bundle_waypoints (ports1 ports2 : list Port)
    (waypoints : list point) (separation : option Q) : result (list (list point)) :=
  waypoints <- remove_flat_angles waypoints ;;
  let way_segments := combine waypoints (tl waypoints) in
  w0 <- index waypoints 0 ;;
  offsets_start <- get_ports_x_or_y_distances ports1 w0 ;;
  offsets_mid <- mid_offsets separation offsets_start ;;
  p0 <- index ports1 0 ;;
  let start_angle := orientation p0 in
  let offsets_start := flip_offsets start_angle offsets_start in
  let offsets_mid := flip_offsets start_angle offsets_mid in
  q0 <- index ports2 0 ;;
  let end_angle := orientation q0 in
  routes <- mapM (port_route way_segments ports2 end_angle offsets_start offsets_mid)
                 (seq 0 (length ports1)) ;;
  mapM (fun rp : list point * Port => set_first (fst rp) (snd rp))
       (combine routes ports1).

End Kernel.

(** ** The entry point and the store of ports *)

(** Modelled from the spec: a [Port] object as the caller hands it over
    (section 3).  Its angle is the number the caller stored in it, an
    integer or not; [get_bundle_from_waypoints] is what makes it an
    integer. *)
Record PortObject : Type := mkPortObject {
  obj_midpoint : point;
  obj_angle : Q;
  obj_width : Q
}.

(** Python's [int] on a number: the fractional part is dropped, towards
    zero. *)
Definition int (a : Q) : Z := Z.quot (Qnum a) (Zpos (Qden a)).

Definition addr : Type := nat.
Definition store : Type := addr -> PortObject.

(** [p.angle = v] on the object at address [a]; [v] is an integer. *)
Definition set_angle (h : store) (a : addr) (v : Z) : store :=
  fun b => if (b =? a)%nat
           then mkPortObject (obj_midpoint (h b)) (inject_Z v) (obj_width (h b))
           else h b.

(** [for p in ports: p.angle = int(p.angle) % 360]. *)
Definition normalize_angles (ports : list addr) (h : store) : store :=
  fold_left (fun h p => set_angle h p (int (obj_angle (h p)) mod 360)%Z) ports h.

(** What the code after the two loops reads from a port of either bundle:
    its position, its width and the integer that the loop stored as its
    angle ([int] gives an integer back as it is). *)
Definition port_of (o : PortObject) : Port :=
  mkPort (obj_midpoint o) (int (obj_angle o)) (obj_width o).

Inductive sorttype : Type := SortX | SortY | SortNegX | SortNegY.

Definition angles_to_sorttypes : list ((Z * Z) * (sorttype * sorttype)) :=
  [ ((0, 180), (SortY, SortY));
    ((0, 90), (SortY, SortX));
    ((0, 0), (SortY, SortNegY));
    ((0, 270), (SortY, SortNegX));
    ((90, 0), (SortX, SortY));
    ((90, 90), (SortX, SortNegX));
    ((90, 180), (SortX, SortNegY));
    ((90, 270), (SortX, SortX));
    ((180, 90), (SortY, SortNegX));
    ((180, 0), (SortY, SortY));
    ((180, 270), (SortY, SortX));
    ((180, 180), (SortY, SortNegY));
    ((270, 90), (SortX, SortX));
    ((270, 270), (SortX, SortNegX));
    ((270, 0), (SortX, SortNegY));
    ((270, 180), (SortX, SortY)) ]%Z.

Definition dict_sorts (st : sorttype) (p : Port) : Q :=
  match st with
  | SortX => x p
  | SortY => y p
  | SortNegX => - x p
  | SortNegY => - y p
  end.

(** [angles_to_sorttypes[key]]. *)
Definition lookup_sorttypes (key : Z * Z) : result (sorttype * sorttype) :=
  match find (fun e => (fst (fst e) =? fst key)%Z && (snd (fst e) =? snd key)%Z)
             angles_to_sorttypes with
  | Some e => Ok (snd e)
  | None => Error KeyError
  end.

(** [list.sort(key=...)]: a stable sort on the keys read from the store. *)
Fixpoint insert_by (key : addr -> Q) (a : addr) (l : list addr) : list addr :=
  match l with
  | [] => [a]
  | b :: l' => if Qle_bool (key a) (key b) then a :: l else b :: insert_by key a l'
  end.

Definition sort_by (key : addr -> Q) (l : list addr) : list addr :=
  fold_right (insert_by key) [] l.

(** What the caller can observe after a call: the port objects and the two
    list objects it passed in. *)
Record world : Type := mkWorld {
  ports : store;
  bundle1 : list addr;
  bundle2 : list addr
}.

Section Bundle.

Variable get_list_ports_angle : list Port -> result Z.
Variable remove_flat_angles : list point -> result (list point).

(** The route assembler and the shape factories (section 4.6 of the
    specification) are outside this module: the calls of [cross_section] and
    [bend_factory], the choice of the taper (lines 152-164, from the
    cross-section and the first port) and the calls of [round_corners]. *)
Variables CrossSection Bend Taper Route : Type.
Variable cross_section : result CrossSection.
Variable bend_factory : result Bend.
Variable taper_of : CrossSection -> Port -> result (option Taper).
Variable round_corners : list point -> Bend -> option Taper -> result Route.

(** The part of [get_bundle_from_waypoints] after the in-place updates; it
    only reads the store. *)
Definition bundle_routes (h : store) (ports1 ports2 : list addr)
    (waypoints : list point) (separation : option Q) : result (list Route) :=
  let ps1 := map (fun a => port_of (h a)) ports1 in
  let ps2 := map (fun a => port_of (h a)) ports2 in
  routes <- _generate_manhattan_bundle_waypoints get_list_ports_angle
              remove_flat_angles ps1 ps2 waypoints separation ;;
  xs <- cross_section ;;
  bends90 <- mapM (fun _ => bend_factory) ps1 ;;
  p0 <- index ps1 0 ;;
  taper <- taper_of xs p0 ;;
  mapM (fun pb : list point * Bend => round_corners (fst pb) (snd pb) taper)
       (combine routes bends90).

Definition get_bundle_from_waypoints (w : world) (waypoints : list point)
    (sort_ports : bool) (separation : option Q) : result (list Route) * world :=
  let ports1 := bundle1 w in
  let ports2 := bundle2 w in
  if negb (length ports2 =? length ports1)%nat then (Error PortCountMismatch, w)
  else
    let h := normalize_angles ports2 (normalize_angles ports1 (ports w)) in
    match index ports1 0, index ports2 0 with
    | Ok a1, Ok a2 =>
        let start_angle := orientation (port_of (h a1)) in
        let end_angle := orientation (port_of (h a2)) in
        let waypoints :=
          [midpoint (port_of (h a1))] ++ waypoints ++ [midpoint (port_of (h a2))] in
        match lookup_sorttypes (start_angle, end_angle) with
        | Ok (sp_st, ep_st) =>
            let ports1 :=
              if sort_ports then sort_by (fun a => dict_sorts sp_st (port_of (h a))) ports1
              else ports1 in
            let ports2 :=
              if sort_ports then sort_by (fun a => dict_sorts ep_st (port_of (h a))) ports2
              else ports2 in
            (bundle_routes h ports1 ports2 waypoints separation,
             mkWorld h ports1 ports2)
        | Error e => (Error e, mkWorld h ports1 ports2)
        end
    | Error e, _ => (Error e, mkWorld h ports1 ports2)
    | _, Error e => (Error e, mkWorld h ports1 ports2)
    end.

End Bundle.

(** ** The inner loop in closed form

    [corner] is the point that iteration [j] of the inner loop appends for
    port [i], and [finish] is what the last iteration does to the list of
    corners (append the end point, then snap the last two points).  They are
    proved equal to the loop below ([port_route_closed]). *)

Definition corner (way_segments : list segment) (o_start : Q) (offsets_mid : list Q)
    (i j : nat) : result point :=
  seg <- index way_segments j ;;
  seg_sep <- (if (j =? 0)%nat then Ok o_start else index offsets_mid i) ;;
  d_seg <- _make_segment seg seg_sep ;;
  if (j =? 0)%nat then Ok (fst d_seg)
  else
    prev_seg <- index way_segments (j - 1) ;;
    tmp_seg <- _make_segment prev_seg (if (j =? 1)%nat then o_start else seg_sep) ;;
    _intersection d_seg tmp_seg.

(** The value of [prev_seg_sep] when iteration [j] starts. *)
Definition prev_sep_at (o_start : Q) (offsets_mid : list Q) (i j : nat) : Q :=
  if (j <=? 1)%nat then o_start else nth i offsets_mid 0.

Definition snap_pair (end_angle : Z) (c e : point) : list point :=
  if angle_in end_angle [0; 180]%Z
  then [(px c, py e); (px e, py e)]
  else [(px e, py c); (px e, py e)].

Definition finish (ports2 : list Port) (end_angle : Z) (i : nat) (corners : list point)
  : result (list point) :=
  match rev corners with
  | [] => Ok []
  | c :: front =>
      p2 <- index ports2 i ;;
      Ok (rev front ++ snap_pair end_angle c (position p2))
  end.

(** What snapping makes of the last corner [c] for the end point [e]. *)
Definition snapped (end_angle : Z) (c e : point) : point :=
  if angle_in end_angle [0; 180]%Z then (px c, py e) else (px e, py c).

(** The stages a successful call of the kernel went through, for given
    collaborators [gpa] (the bundle's orientation) and [rfa] (the path
    normalizer). *)
Inductive stages (gpa : list Port -> result Z) (rfa : list point -> result (list point))
    (ports1 ports2 : list Port) (waypoints : list point)
    (separation : option Q) (routes : list (list point)) : Prop :=
| Stages (path : list point) (ref : point) (o_start o_mid : list Q) (p0 q0 : Port)
    (raw : list (list point))
    (Hpath : rfa waypoints = Ok path)
    (Href : index path 0 = Ok ref)
    (Hstart : get_ports_x_or_y_distances gpa ports1 ref = Ok o_start)
    (Hmid : mid_offsets separation o_start = Ok o_mid)
    (Hp0 : index ports1 0 = Ok p0)
    (Hq0 : index ports2 0 = Ok q0)
    (Hraw : mapM (port_route (combine path (tl path)) ports2 (orientation q0)
                    (flip_offsets (orientation p0) o_start)
                    (flip_offsets (orientation p0) o_mid))
                 (seq 0 (length ports1)) = Ok raw)
    (Hroutes : mapM (fun rp : list point * Port => set_first (fst rp) (snd rp))
                    (combine raw ports1) = Ok routes).

(** ** Predicates on offsets, segments and routes *)

(** The start offset of one port for a bundle of orientation [a]. *)
Definition start_offset (a : Z) (ref : point) (p : Port) : Q :=
  if angle_in a [0; 180]%Z then y p - py ref else x p - px ref.

(** A segment that is horizontal or vertical within the tolerance, and not
    both. *)
Definition strict_segment (s : segment) : bool :=
  xorb (_is_horizontal s) (_is_vertical s).

(** The segment runs along the axis of ports of orientation [end_angle]. *)
Definition along_end_axis (end_angle : Z) (s : segment) : bool :=
  if angle_in end_angle [0; 180]%Z then _is_horizontal s else _is_vertical s.

(** The segment leaves the ports of orientation [a] along their axis, in the
    direction of growing coordinates. *)
Definition leaves_forward (a : Z) (s : segment) : bool :=
  (angle_in a [0; 180]%Z && _is_horizontal s && negb (_is_vertical s)
   && Qltb (px (fst s)) (px (snd s)))
  || (angle_in a [90; 270]%Z && _is_vertical s && negb (_is_horizontal s)
      && Qltb (py (fst s)) (py (snd s))).

Definition manhattan_segment (s : segment) : bool := _is_horizontal s || _is_vertical s.

(** One segment of the pair is horizontal and the other one vertical. *)
Definition one_h_one_v (s1 s2 : segment) : bool :=
  (_is_horizontal s1 && _is_vertical s2) || (_is_horizontal s2 && _is_vertical s1).

(** A consecutive pair of route points that is horizontal or vertical within
    the tolerance. *)
Definition manhattan_pair (p q : point) : bool :=
  _is_horizontal (p, q) || _is_vertical (p, q).

(** ** Reference collaborators and sample inputs

    Concrete collaborators, used to run the kernel on examples. *)

(** Modelled from the spec: [get_list_ports_angle] is not part of the sources
    at hand.  Section 3: all ports within one bundle share the same
    orientation; it is read off the first port. *)
Definition bundle_angle (list_ports : list Port) : result Z :=
  match list_ports with
  | [] => Error IndexError
  | p :: _ => Ok (orientation p)
  end.

(** Modelled from the spec: [remove_flat_angles] is not part of the sources
    at hand.  Section 4.1: a run of collinear horizontal or collinear
    vertical points becomes its two endpoints; the result must not contain
    a segment that is neither horizontal nor vertical. *)
Definition flat (a b c : point) : bool :=
  (_is_horizontal (a, b) && _is_horizontal (b, c))
  || (_is_vertical (a, b) && _is_vertical (b, c)).

(** Modelled from the spec: section 4.1, the middle point of three collinear
    points is dropped. *)
Fixpoint collapse (a : point) (rest : list point) : list point :=
  match rest with
  | [] => [a]
  | b :: rest' =>
      match rest' with
      | [] => [a; b]
      | c :: _ => if flat a b c then collapse a rest' else a :: collapse b rest'
      end
  end.

(** Modelled from the spec: section 4.1, the normalizer, failing with
    [InvalidPath] on a path that keeps a diagonal segment. *)
Definition normalize_path (waypoints : list point) : result (list point) :=
  match waypoints with
  | [] => Ok []
  | a :: rest =>
      let path := collapse a rest in
      if forallb (fun s => _is_horizontal s || _is_vertical s) (combine path (tl path))
      then Ok path else Error InvalidPath
  end.

Definition generate : list Port -> list Port -> list point -> option Q
    -> result (list (list point)) :=
  _generate_manhattan_bundle_waypoints bundle_angle normalize_path.

Definition port_at (px py : Z) (a : Z) : Port :=
  mkPort (inject_Z px, inject_Z py) a (1 # 2).

Definition pt (px py : Z) : point := (inject_Z px, inject_Z py).

(** A bundle of two ports routed along a path of three segments. *)
Definition sample_ports1 : list Port := [port_at 0 0 0; port_at 0 10 0].
Definition sample_ports2 : list Port := [port_at 100 50 180; port_at 100 70 180].
Definition sample_waypoints : list point := [pt 0 0; pt 50 0; pt 50 50; pt 100 50].
Definition sample_ways : list segment := combine sample_waypoints (tl sample_waypoints).
Definition sample_routes : list (list point) :=
  [[pt 0 0; pt 50 0; pt 50 50; pt 100 50]; [pt 0 10; pt 40 10; pt 40 70; pt 100 70]].

Definition object_at (px py : Z) (a : Q) : PortObject :=
  mkPortObject (inject_Z px, inject_Z py) a (1 # 2).

(** Two bundles whose ports carry the orientations 360 and 540. *)
Definition turned_ports : store :=
  fun a =>
    match a with
    | 0%nat => object_at 0 0 360
    | 1%nat => object_at 0 10 360
    | 2%nat => object_at 50 0 540
    | _ => object_at 50 10 540
    end.

Definition turned_world : world := mkWorld turned_ports [0; 1]%nat [2; 3]%nat.

(** The same two bundles with the angles 0.5 and -179.5. *)
Definition fractional_ports : store :=
  fun a =>
    match a with
    | 0%nat => object_at 0 0 (1 # 2)
    | 1%nat => object_at 0 10 (1 # 2)
    | 2%nat => object_at 50 0 (-359 # 2)
    | _ => object_at 50 10 (-359 # 2)
    end.

Definition fractional_world : world := mkWorld fractional_ports [0; 1]%nat [2; 3]%nat.

(** One port facing 45.5 degrees and one facing 180 degrees. *)
Definition slanted_ports : store :=
  fun a =>
    match a with
    | 0%nat => object_at 0 0 (91 # 2)
    | _ => object_at 50 0 180
    end.

Definition slanted_world : world := mkWorld slanted_ports [0]%nat [1]%nat.

(** A vertical segment shorter than the tolerance. *)
Definition short_vertical : segment := ((0, 0), (0, 1 # 1000000)).

(** Sample collaborators for the entry point: an assembler that hands each
    route back as it is. *)
Definition sample_bundle (w : world) (waypoints : list point) (sort_ports : bool)
    (separation : option Q) : result (list (list point)) * world :=
  get_bundle_from_waypoints bundle_angle normalize_path
    (Ok tt) (Ok tt) (fun _ _ => Ok (@None unit)) (fun pts _ _ => Ok pts)
    w waypoints sort_ports separation.

(** ** Comparing rational points *)

(** Two points, or two segments, with equal coordinates as rationals. *)
Definition point_eq (p q : point) : Prop := px p == px q /\ py p == py q.

Definition segment_eq (s t : segment) : Prop :=
  point_eq (fst s) (fst t) /\ point_eq (snd s) (snd t).

(** The segment walked backwards. *)
Definition reversed (s : segment) : segment := (snd s, fst s).

(** One of the four orientations of the sort-key table. *)
Definition cardinal (a : Z) : bool := angle_in a [0; 90; 180; 270]%Z.

(** The keys of a list of ports never decrease. *)
Fixpoint ascending (key : addr -> Q) (l : list addr) : Prop :=
  match l with
  | [] => True
  | a :: l' => match l' with
               | [] => True
               | b :: _ => key a <= key b
               end /\ ascending key l'
  end.

(** The corner between [prev_seg], displaced by [prev], and [seg], displaced
    by [cur], when each is horizontal or vertical and not both: the X of the
    displaced vertical one and the Y of the displaced horizontal one. *)
Definition corner_formula (seg prev_seg : segment) (cur prev : Q) : point :=
  if _is_horizontal seg
  then (px (fst prev_seg) + -1 * Qsign (py (snd prev_seg) - py (fst prev_seg)) * prev,
        py (fst seg) + 1 * Qsign (px (snd seg) - px (fst seg)) * cur)
  else (px (fst seg) + -1 * Qsign (py (snd seg) - py (fst seg)) * cur,
        py (fst prev_seg) + 1 * Qsign (px (snd prev_seg) - px (fst prev_seg)) * prev).

(** Two points closer than the tolerance in X and in Y. *)
Definition near (p q : point) : Prop :=
  Qabs (px p - px q) < tol /\ Qabs (py p - py q) < tol.

(** * Properties *)

(** ** The result monad *)

Lemma bind_ok {A B : Type} (r : result A) (k : A -> result B) (b : B) :
  bind r k = Ok b -> exists a, r = Ok a /\ k a = Ok b.
Proof.
  destruct r as [a|e]; simpl; intros H; [exists a; auto | discriminate].
Qed.

Ltac inv_bind H :=
  let a := fresh "v" in
  let Ha := fresh "E" in
  apply bind_ok in H; destruct H as (a & Ha & H).

Lemma index_ok {A : Type} (l : list A) (i : nat) (a : A) :
  index l i = Ok a <-> nth_error l i = Some a.
Proof.
  unfold index. destruct (nth_error l i); split; intros H; inversion H; auto.
Qed.

Lemma index_lt {A : Type} (l : list A) (i : nat) :
  (i < length l)%nat -> exists a, index l i = Ok a.
Proof.
  intros H. unfold index. destruct (nth_error l i) eqn:E; eauto.
  apply nth_error_None in E. lia.
Qed.

Lemma mapM_length {A B : Type} (f : A -> result B) (l : list A) (bs : list B) :
  mapM f l = Ok bs -> length bs = length l.
Proof.
  revert bs. induction l as [|a l IH]; simpl; intros bs H.
  - inversion H. reflexivity.
  - inv_bind H. inv_bind H. inversion H; subst. simpl. f_equal. auto.
Qed.

Lemma mapM_nth {A B : Type} (f : A -> result B) (l : list A) (bs : list B) :
  mapM f l = Ok bs ->
  forall i a, nth_error l i = Some a ->
  exists b, nth_error bs i = Some b /\ f a = Ok b.
Proof.
  revert bs. induction l as [|a0 l IH]; simpl; intros bs H i a Hi.
  - destruct i; discriminate.
  - inv_bind H. inv_bind H. inversion H; subst.
    destruct i as [|i]; simpl in *.
    + inversion Hi; subst. eauto.
    + eauto.
Qed.

Lemma mapM_pure {A B : Type} (f : A -> B) (l : list A) :
  mapM (fun a => Ok (f a)) l = Ok (map f l).
Proof.
  induction l as [|a l IH]; simpl; [reflexivity|]. rewrite IH. reflexivity.
Qed.

Lemma mapM_total {A B : Type} (f : A -> result B) (l : list A) :
  (forall a, In a l -> exists b, f a = Ok b) -> exists bs, mapM f l = Ok bs.
Proof.
  induction l as [|a l IH]; simpl; intros H; [eauto|].
  destruct (H a) as [b Hb]; auto. rewrite Hb. simpl.
  destruct IH as [bs Hbs]; auto. rewrite Hbs. simpl. eauto.
Qed.

(** ** Numbers and segments *)

Lemma Qltb_lt (a b : Q) : Qltb a b = true <-> a < b.
Proof.
  unfold Qltb. destruct (Qcompare_spec a b) as [H|H|H]; split; intros H';
    try discriminate; try reflexivity; try assumption.
  - rewrite H in H'. exfalso. apply (Qlt_irrefl b H').
  - exfalso. apply (Qlt_irrefl a). apply Qlt_trans with b; assumption.
Qed.

Lemma Qltb_compat (a a' b : Q) : a == a' -> Qltb a b = Qltb a' b.
Proof. intros H. unfold Qltb. rewrite H. reflexivity. Qed.

Lemma within_tol_compat (a a' : Q) :
  a == a' -> Qltb (Qabs a) tol = Qltb (Qabs a') tol.
Proof. intros H. apply Qltb_compat. rewrite H. reflexivity. Qed.

Lemma within_tol_zero (a : Q) : a == 0 -> Qltb (Qabs a) tol = true.
Proof.
  intros H. rewrite (within_tol_compat H). reflexivity.
Qed.

Lemma translate_horizontal (s : segment) (dp : point) :
  _is_horizontal (translate s dp) = _is_horizontal s.
Proof.
  destruct s as [[x0 y0] [x1 y1]], dp as [dx dy]. unfold _is_horizontal, translate, px, py; cbn [fst snd].
  apply within_tol_compat. ring.
Qed.

Lemma translate_vertical (s : segment) (dp : point) :
  _is_vertical (translate s dp) = _is_vertical s.
Proof.
  destruct s as [[x0 y0] [x1 y1]], dp as [dx dy]. unfold _is_vertical, translate, px, py; cbn [fst snd].
  apply within_tol_compat. ring.
Qed.

(** What [_make_segment] returns, by the two tolerance tests. *)
Lemma make_segment_cases (s : segment) (a : Q) :
  _make_segment s a =
  match _is_horizontal s, _is_vertical s with
  | true, true => Ok (translate s (0, 1 * Qsign (py (snd s) - py (fst s)) * a))
  | true, false => Ok (translate s (0, 1 * Qsign (px (snd s) - px (fst s)) * a))
  | false, true => Ok (translate s (-1 * Qsign (py (snd s) - py (fst s)) * a, 0))
  | false, false => Error SegmentNotManhattan
  end.
Proof.
  unfold _make_segment, _displace_segment_copy_group1, _displace_segment_copy, _segment_sign.
  destruct s as [p0 p1]. simpl fst; simpl snd.
  destruct (_is_horizontal (p0, p1)), (_is_vertical (p0, p1)); reflexivity.
Qed.

Lemma make_segment_ok (s d : segment) (a : Q) :
  _make_segment s a = Ok d ->
  _is_horizontal d = _is_horizontal s /\ _is_vertical d = _is_vertical s
  /\ (_is_horizontal s || _is_vertical s = true).
Proof.
  rewrite make_segment_cases.
  destruct (_is_horizontal s) eqn:Hh, (_is_vertical s) eqn:Hv; intros H; inversion H; subst;
    rewrite translate_horizontal, translate_vertical; auto.
Qed.

Lemma make_segment_total (s : segment) (a : Q) :
  _is_horizontal s || _is_vertical s = true -> exists d, _make_segment s a = Ok d.
Proof.
  rewrite make_segment_cases.
  destruct (_is_horizontal s), (_is_vertical s); simpl; intros H; eauto; discriminate.
Qed.

(** ** Snapping *)

Lemma last2_app2 {A : Type} (r : list A) (a b : A) : last2 (r ++ [a; b]) = [a; b].
Proof.
  unfold last2. rewrite length_app. simpl.
  replace (length r + 2 - 2)%nat with (length r + 0)%nat by lia.
  rewrite skipn_app, Nat.add_0_r, skipn_all.
  replace (length r - length r)%nat with 0%nat by lia. reflexivity.
Qed.

Lemma all_but_last2_app2 {A : Type} (r : list A) (a b : A) :
  all_but_last2 (r ++ [a; b]) = r.
Proof.
  unfold all_but_last2. rewrite length_app. simpl.
  replace (length r + 2 - 2)%nat with (length r + 0)%nat by lia.
  rewrite firstn_app_2. simpl. apply app_nil_r.
Qed.

Lemma snap_y_app2 (r : list point) (c e : point) (v : Q) :
  snap_route_to_end_point_y (r ++ [c; e]) v = Ok (r ++ [(px c, v); (px e, v)]).
Proof.
  unfold snap_route_to_end_point_y. rewrite last2_app2, all_but_last2_app2. reflexivity.
Qed.

Lemma snap_x_app2 (r : list point) (c e : point) (v : Q) :
  snap_route_to_end_point_x (r ++ [c; e]) v = Ok (r ++ [(v, py c); (v, py e)]).
Proof.
  unfold snap_route_to_end_point_x. rewrite last2_app2, all_but_last2_app2. reflexivity.
Qed.

Lemma snap_end (end_angle : Z) (r : list point) (c e : point) :
  (if angle_in end_angle [0; 180]%Z
   then snap_route_to_end_point_y ((r ++ [c]) ++ [e]) (py e)
   else snap_route_to_end_point_x ((r ++ [c]) ++ [e]) (px e))
  = Ok (r ++ snap_pair end_angle c e).
Proof.
  rewrite <- app_assoc. cbn [app]. unfold snap_pair.
  destruct (angle_in end_angle [0; 180]%Z).
  - apply snap_y_app2.
  - apply snap_x_app2.
Qed.

(** ** The inner loop equals its closed form *)

Lemma index_nth {A : Type} (l : list A) (i : nat) (a d : A) :
  index l i = Ok a -> nth i l d = a.
Proof. intros H. apply index_ok in H. apply nth_error_nth. assumption. Qed.

Lemma skipn_cons_nth {A : Type} (l : list A) (k : nat) (a : A) (rest : list A) :
  skipn k l = a :: rest ->
  nth_error l k = Some a /\ skipn (S k) l = rest /\ length l = (k + S (length rest))%nat.
Proof.
  revert l. induction k as [|k IH]; intros l H.
  - simpl in H. subst. simpl. auto.
  - destruct l as [|b l]; simpl in H; [discriminate|].
    destruct (IH l H) as (H1 & H2 & H3). simpl. repeat split; auto.
Qed.

Lemma route_step_corner (ways : list segment) (ports2 : list Port) (ea : Z)
    (om : list Q) (i : nat) (o_start : Q) (route : list point) (k : nat) (seg : segment) :
  nth_error ways k = Some seg ->
  route_step ways ports2 ea om i (prev_sep_at o_start om i k, route) (k, seg) =
  (c <- corner ways o_start om i k ;;
   route' <- (if (k =? length ways - 1)%nat
              then p2 <- index ports2 i ;; Ok (route ++ snap_pair ea c (position p2))
              else Ok (route ++ [c])) ;;
   Ok (prev_sep_at o_start om i (S k), route')).
Proof.
  intros Hk. unfold route_step, corner.
  apply index_ok in Hk. rewrite Hk. cbn [bind].
  generalize (k =? length ways - 1)%nat; intros last_iteration.
  destruct k as [|k].
  - cbn [Nat.eqb prev_sep_at Nat.leb bind].
    destruct (_make_segment seg o_start) as [d|e]; cbn [bind]; [|reflexivity].
    destruct last_iteration; cbn [bind]; [|reflexivity].
    destruct (index ports2 i) as [p2|e]; cbn [bind]; [|reflexivity].
    rewrite snap_end. reflexivity.
  - cbn [Nat.eqb bind].
    destruct (index om i) as [v|e] eqn:Ev; cbn [bind]; [|reflexivity].
    destruct (_make_segment seg v) as [d|e]; cbn [bind]; [|reflexivity].
    replace (prev_sep_at o_start om i (S k)) with (if (S k =? 1)%nat then o_start else v).
    2:{ unfold prev_sep_at. destruct k; cbn; [reflexivity|].
        symmetry. apply index_nth. assumption. }
    replace (prev_sep_at o_start om i (S (S k))) with v.
    2:{ unfold prev_sep_at. cbn. symmetry. apply index_nth. assumption. }
    destruct (index ways (S k - 1)) as [ps|e]; cbn [bind]; [|reflexivity].
    destruct (_make_segment ps _) as [t|e]; cbn [bind]; [|reflexivity].
    destruct (_intersection d t) as [c|e]; cbn [bind]; [|reflexivity].
    destruct last_iteration; cbn [bind]; [|reflexivity].
    destruct (index ports2 i) as [p2|e]; cbn [bind]; [|reflexivity].
    rewrite snap_end. reflexivity.
Qed.

Lemma finish_cons (ports2 : list Port) (ea : Z) (i : nat) (c : point) (cs : list point) :
  cs <> [] ->
  finish ports2 ea i (c :: cs) = (tail <- finish ports2 ea i cs ;; Ok (c :: tail)).
Proof.
  intros Hne. unfold finish. cbn [rev].
  destruct (rev cs) as [|l front] eqn:Er.
  - exfalso. apply Hne. rewrite <- (rev_involutive cs), Er. reflexivity.
  - cbn [app]. destruct (index ports2 i); cbn [bind]; [|reflexivity].
    rewrite rev_app_distr. reflexivity.
Qed.

Lemma route_loop_closed (ways : list segment) (ports2 : list Port) (ea : Z)
    (om : list Q) (i : nat) (o_start : Q) (segs : list segment) :
  forall (k : nat) (route : list point),
  skipn k ways = segs ->
  (st <- foldM (route_step ways ports2 ea om i) (combine (seq k (length segs)) segs)
               (prev_sep_at o_start om i k, route) ;;
   Ok (snd st))
  = (cs <- mapM (corner ways o_start om i) (seq k (length segs)) ;;
     tail <- finish ports2 ea i cs ;;
     Ok (route ++ tail)).
Proof.
  induction segs as [|seg segs IH]; intros k route Hk.
  - cbn. rewrite app_nil_r. reflexivity.
  - destruct (skipn_cons_nth _ _ Hk) as (Hnth & Hrest & Hlen).
    cbn [length seq combine foldM mapM].
    rewrite (@route_step_corner ways ports2 ea om i o_start route k seg Hnth).
    destruct (corner ways o_start om i k) as [c|e]; cbn [bind]; [|reflexivity].
    destruct segs as [|seg' segs].
    + replace (k =? length ways - 1)%nat with true
        by (symmetry; apply Nat.eqb_eq; simpl in Hlen; lia).
      cbn [length seq combine foldM mapM bind]. unfold finish. cbn [rev app].
      destruct (index ports2 i); reflexivity.
    + replace (k =? length ways - 1)%nat with false
        by (symmetry; apply Nat.eqb_neq; simpl in Hlen; lia).
      cbn [bind]. rewrite (IH (S k) (route ++ [c]) Hrest).
      destruct (mapM (corner ways o_start om i) (seq (S k) (length (seg' :: segs))))
        as [cs|e] eqn:Ecs; cbn [bind]; [|reflexivity].
      rewrite finish_cons.
      2:{ apply mapM_length in Ecs. rewrite length_seq in Ecs.
          destruct cs; [discriminate|congruence]. }
      destruct (finish ports2 ea i cs); cbn [bind]; [|reflexivity].
      rewrite <- app_assoc. reflexivity.
Qed.

(** The inner loop of port [i] computes the corners of the segments in
    order, then appends the end point and snaps the last two points. *)
Lemma port_route_closed (ways : list segment) (ports2 : list Port) (ea : Z)
    (os om : list Q) (i : nat) :
  port_route ways ports2 ea os om i =
  (o_start <- index os i ;;
   cs <- mapM (corner ways o_start om i) (seq 0 (length ways)) ;;
   finish ports2 ea i cs).
Proof.
  unfold port_route. destruct (index os i) as [o_start|e]; cbn [bind]; [|reflexivity].
  unfold enumerate.
  pose proof (@route_loop_closed ways ports2 ea om i o_start ways 0%nat [] eq_refl) as H.
  cbn [prev_sep_at Nat.leb app] in H. rewrite H.
  destruct (mapM (corner ways o_start om i) (seq 0 (length ways))); cbn [bind]; [|reflexivity].
  destruct (finish ports2 ea i a); reflexivity.
Qed.

(** ** The stages of the kernel *)

Lemma finish_shape (ports2 : list Port) (ea : Z) (i : nat) (cs tail : list point) :
  finish ports2 ea i cs = Ok tail ->
  cs = [] /\ tail = []
  \/ exists front c p2,
       cs = front ++ [c] /\ nth_error ports2 i = Some p2
       /\ tail = front ++ snap_pair ea c (position p2).
Proof.
  unfold finish. destruct (rev cs) as [|c front] eqn:Er; intros H.
  - left. inversion H. split; [|reflexivity].
    rewrite <- (rev_involutive cs), Er. reflexivity.
  - right. inv_bind H. inversion H; subst. exists (rev front), c, v.
    repeat split; [|apply index_ok; assumption].
    rewrite <- (rev_involutive cs), Er. reflexivity.
Qed.

Lemma snap_pair_last (ea : Z) (c e : point) :
  exists c', snap_pair ea c e = [c'; e].
Proof.
  unfold snap_pair. destruct e as [ex ey].
  destruct (angle_in ea [0; 180]%Z); eexists; reflexivity.
Qed.

Lemma nth_error_seq0 (n i : nat) : (i < n)%nat -> nth_error (seq 0 n) i = Some i.
Proof.
  intros H. rewrite nth_error_nth' with (d := 0%nat) by (rewrite length_seq; assumption).
  rewrite seq_nth by assumption. reflexivity.
Qed.

Lemma nth_error_combine {A B : Type} (l : list A) (l' : list B) (i : nat) (a : A) (b : B) :
  nth_error l i = Some a -> nth_error l' i = Some b ->
  nth_error (combine l l') i = Some (a, b).
Proof.
  revert l' i. induction l as [|a0 l IH]; intros l' i Ha Hb.
  - destruct i; discriminate.
  - destruct l' as [|b0 l']; [destruct i; discriminate|].
    destruct i as [|i]; simpl in *.
    + congruence.
    + auto.
Qed.

(** The route of port [i], from the two loops that end the kernel. *)
Lemma routes_shape (ways : list segment) (ports1 ports2 : list Port) (ea : Z)
    (os om : list Q) (raw routes : list (list point)) (i : nat) (p1 : Port) :
  mapM (port_route ways ports2 ea os om) (seq 0 (length ports1)) = Ok raw ->
  mapM (fun rp : list point * Port => set_first (fst rp) (snd rp))
       (combine raw ports1) = Ok routes ->
  nth_error ports1 i = Some p1 ->
  exists o_i cs front c p2,
    nth_error os i = Some o_i
    /\ mapM (corner ways o_i om i) (seq 0 (length ways)) = Ok cs
    /\ cs = front ++ [c]
    /\ nth_error ports2 i = Some p2
    /\ port_route ways ports2 ea os om i = Ok (front ++ snap_pair ea c (position p2))
    /\ nth_error routes i
       = Some (midpoint p1 :: tl (front ++ snap_pair ea c (position p2))).
Proof.
  intros Hraw Hroutes Hp1.
  assert (Hi : (i < length ports1)%nat) by (apply nth_error_Some; congruence).
  destruct (mapM_nth _ _ Hraw _ (nth_error_seq0 Hi)) as (raw_i & Hraw_i & Hport).
  destruct (mapM_nth _ _ Hroutes _ (nth_error_combine _ _ _ Hraw_i Hp1))
    as (route & Hroute & Hset).
  cbn [fst snd] in Hset.
  pose proof Hport as Hclosed. rewrite port_route_closed in Hclosed.
  inv_bind Hclosed. inv_bind Hclosed. rename v into o_i, v0 into cs.
  destruct (finish_shape _ _ _ _ Hclosed) as [[_ Hnil]|(front & c & p2 & Hcs & Hp2 & Htail)].
  - subst raw_i. discriminate.
  - exists o_i, cs, front, c, p2. subst raw_i.
    repeat split; auto.
    + apply index_ok. assumption.
    + rewrite Hroute. unfold set_first in Hset.
      destruct (front ++ snap_pair ea c (position p2)); [discriminate|].
      inversion Hset. reflexivity.
Qed.

Section KernelFacts.

Variable get_list_ports_angle : list Port -> result Z.
Variable remove_flat_angles : list point -> result (list point).

Local Notation "'kernel'" :=
  (_generate_manhattan_bundle_waypoints get_list_ports_angle remove_flat_angles).
Local Notation "'distances'" := (get_ports_x_or_y_distances get_list_ports_angle).

Lemma kernel_stages (ports1 ports2 : list Port) (waypoints : list point)
    (separation : option Q) (routes : list (list point)) :
  kernel ports1 ports2 waypoints separation = Ok routes ->
  stages get_list_ports_angle remove_flat_angles ports1 ports2 waypoints separation routes.
Proof.
  unfold _generate_manhattan_bundle_waypoints. intros H.
  inv_bind H. inv_bind H. inv_bind H. inv_bind H. inv_bind H. inv_bind H. inv_bind H.
  econstructor; eassumption.
Qed.

Lemma kernel_length (ports1 ports2 : list Port) (waypoints : list point)
    (separation : option Q) (routes : list (list point)) :
  kernel ports1 ports2 waypoints separation = Ok routes ->
  length routes = length ports1.
Proof.
  intros H. destruct (kernel_stages _ _ _ _ H).
  apply mapM_length in Hraw, Hroutes.
  rewrite length_seq in Hraw.
  rewrite length_combine in Hroutes. lia.
Qed.


End KernelFacts.

(** The route of port [i] as the kernel returns it. *)
Lemma kernel_route (gpa : list Port -> result Z) (rfa : list point -> result (list point))
    (ports1 ports2 : list Port) (waypoints : list point) (separation : option Q)
    (routes : list (list point)) (path : list point) (q0 : Port) (i : nat)
    (route : list point) :
  _generate_manhattan_bundle_waypoints gpa rfa ports1 ports2 waypoints separation
  = Ok routes ->
  rfa waypoints = Ok path ->
  nth_error ports2 0 = Some q0 ->
  nth_error routes i = Some route ->
  exists p0 p1 ref os om r0 rest,
    nth_error ports1 0 = Some p0 /\ nth_error ports1 i = Some p1
    /\ nth_error path 0 = Some ref
    /\ get_ports_x_or_y_distances gpa ports1 ref = Ok os
    /\ mid_offsets separation os = Ok om
    /\ port_route (combine path (tl path)) ports2 (orientation q0)
         (flip_offsets (orientation p0) os) (flip_offsets (orientation p0) om) i
       = Ok (r0 :: rest)
    /\ route = midpoint p1 :: rest.
Proof.
  intros H Hpath Hq0 Hroute.
  pose proof (kernel_length _ _ _ _ _ _ H) as Hlen.
  destruct (kernel_stages _ _ _ _ _ _ H).
  assert (path0 = path) by congruence. subst path0.
  apply index_ok in Href, Hp0, Hq1.
  assert (q1 = q0) by congruence. subst q1.
  assert (Hi : (i < length ports1)%nat) by (rewrite <- Hlen; apply nth_error_Some; congruence).
  destruct (nth_error ports1 i) as [p1|] eqn:Hp1; [|apply nth_error_None in Hp1; lia].
  destruct (routes_shape _ _ _ _ _ _ _ Hraw Hroutes Hp1)
    as (o_i & cs & front & c & p2 & _ & _ & _ & _ & Hport & Hroute').
  destruct (snap_pair_last (orientation q0) c (position p2)) as [c' Hsnap].
  rewrite Hsnap in Hport, Hroute'.
  assert (Hne : exists r0 rest, front ++ [c'; position p2] = r0 :: rest).
  { destruct front; cbn; eauto. }
  destruct Hne as (r0 & rest & Hne). rewrite Hne in Hport, Hroute'. cbn [tl] in Hroute'.
  exists p0, p1, ref, o_start, o_mid, r0, rest.
  repeat split; auto. congruence.
Qed.

(** ** Corners *)

Lemma intersection_spec (s1 s2 : segment) (c : point) :
  _intersection s1 s2 = Ok c ->
  exists sh sv,
    (sh = s1 /\ sv = s2 \/ sh = s2 /\ sv = s1)
    /\ _is_horizontal sh = true /\ _is_vertical sv = true
    /\ c = (px (fst sv), py (fst sh)).
Proof.
  unfold _intersection.
  destruct (_is_horizontal s1 && _is_vertical s2) eqn:E1.
  - apply andb_prop in E1. destruct E1 as [Hh Hv]. intros H. inversion H.
    exists s1, s2. auto.
  - destruct (_is_horizontal s2 && _is_vertical s1) eqn:E2; [|discriminate].
    apply andb_prop in E2. destruct E2 as [Hh Hv]. intros H. inversion H.
    exists s2, s1. auto.
Qed.

Lemma intersection_error (s1 s2 : segment) :
  one_h_one_v s1 s2 = false -> _intersection s1 s2 = Error NonManhattanIntersection.
Proof.
  unfold one_h_one_v, _intersection. intros H. apply orb_false_elim in H.
  destruct H as [H1 H2]. rewrite H1, H2. reflexivity.
Qed.

Lemma intersection_total (s1 s2 : segment) :
  one_h_one_v s1 s2 = true -> exists c, _intersection s1 s2 = Ok c.
Proof.
  unfold one_h_one_v, _intersection. intros H.
  destruct (_is_horizontal s1 && _is_vertical s2); [eauto|].
  destruct (_is_horizontal s2 && _is_vertical s1); [eauto|discriminate].
Qed.

Lemma one_h_one_v_displaced (s1 s2 d1 d2 : segment) (a1 a2 : Q) :
  _make_segment s1 a1 = Ok d1 -> _make_segment s2 a2 = Ok d2 ->
  one_h_one_v d1 d2 = one_h_one_v s1 s2.
Proof.
  intros H1 H2. apply make_segment_ok in H1, H2.
  destruct H1 as (Hh1 & Hv1 & _), H2 as (Hh2 & Hv2 & _).
  unfold one_h_one_v. rewrite Hh1, Hv1, Hh2, Hv2. reflexivity.
Qed.

(** The corner of iteration [j > 0], spelled out. *)
Lemma corner_pos (ways : list segment) (o_start : Q) (om : list Q) (i j : nat) (c : point) :
  (0 < j)%nat ->
  corner ways o_start om i j = Ok c ->
  exists seg prev_seg o_mid d_seg tmp_seg,
    nth_error ways j = Some seg /\ nth_error ways (j - 1) = Some prev_seg
    /\ nth_error om i = Some o_mid
    /\ _make_segment seg o_mid = Ok d_seg
    /\ _make_segment prev_seg (if (j =? 1)%nat then o_start else o_mid) = Ok tmp_seg
    /\ _intersection d_seg tmp_seg = Ok c.
Proof.
  intros Hj H. unfold corner in H.
  replace (j =? 0)%nat with false in H by (symmetry; apply Nat.eqb_neq; lia).
  inv_bind H. inv_bind H. inv_bind H. inv_bind H. inv_bind H.
  apply index_ok in E, E0, E2.
  exists v, v2, v0, v1, v3. auto 10.
Qed.

(** Where the corners end up in the route of a port. *)
Lemma port_route_corners (ways : list segment) (ports2 : list Port) (ea : Z)
    (os om : list Q) (i : nat) (route : list point) :
  port_route ways ports2 ea os om i = Ok route ->
  ways = [] /\ route = []
  \/ exists o_start p2,
       nth_error os i = Some o_start /\ nth_error ports2 i = Some p2
       /\ length route = S (length ways)
       /\ nth_error route (length ways) = Some (position p2)
       /\ forall j, (j < length ways)%nat ->
          exists c, corner ways o_start om i j = Ok c
            /\ nth_error route j
               = Some (if (j =? length ways - 1)%nat
                       then snapped ea c (position p2) else c).
Proof.
  rewrite port_route_closed. intros H. inv_bind H. inv_bind H.
  rename v into o_start, v0 into cs. apply index_ok in E.
  pose proof (mapM_length _ _ E0) as Hlen. rewrite length_seq in Hlen.
  destruct (finish_shape _ _ _ _ H) as [[Hcs Hr]|(front & c & p2 & Hcs & Hp2 & Hr)].
  - left. subst. destruct ways; [auto|discriminate].
  - right. exists o_start, p2. subst cs route.
    rewrite length_app in Hlen. cbn [length] in Hlen.
    assert (Hsnap : snap_pair ea c (position p2)
                    = [snapped ea c (position p2); position p2]).
    { unfold snap_pair, snapped. destruct (position p2).
      destruct (angle_in ea [0; 180]%Z); reflexivity. }
    rewrite Hsnap. repeat split; auto.
    + rewrite length_app. cbn [length]. lia.
    + rewrite nth_error_app2 by lia.
      replace (length ways - length front)%nat with 1%nat by lia. reflexivity.
    + intros j Hj.
      destruct (mapM_nth _ _ E0 _ (nth_error_seq0 Hj)) as (cj & Hcj & Hcorner).
      exists cj. split; [assumption|].
      destruct (j =? length ways - 1)%nat eqn:Ej.
      * apply Nat.eqb_eq in Ej.
        rewrite nth_error_app2 in Hcj by lia. rewrite nth_error_app2 by lia.
        replace (j - length front)%nat with 0%nat in * by lia.
        cbn in Hcj. inversion Hcj. reflexivity.
      * apply Nat.eqb_neq in Ej.
        rewrite nth_error_app1 in Hcj by lia. rewrite nth_error_app1 by lia.
        assumption.
Qed.

Lemma mapM_first_error {A B : Type} (f : A -> result B) (l1 l2 : list A) (a : A) (e : error) :
  (forall x, In x l1 -> exists b, f x = Ok b) ->
  f a = Error e ->
  mapM f (l1 ++ a :: l2) = Error e.
Proof.
  induction l1 as [|x l1 IH]; intros Hl1 Ha; cbn [app mapM].
  - rewrite Ha. reflexivity.
  - destruct (Hl1 x) as [b Hb]; [left; reflexivity|]. rewrite Hb. cbn [bind].
    rewrite IH; [reflexivity| |assumption].
    intros y Hy. apply Hl1. right. assumption.
Qed.

Lemma seq_split_at (n j : nat) :
  (j < n)%nat -> seq 0 n = seq 0 j ++ j :: seq (S j) (n - S j).
Proof.
  intros H. replace n with (j + S (n - S j))%nat at 1 by lia.
  rewrite seq_app. reflexivity.
Qed.

(** A corner exists as soon as the offsets are there, the segments are
    Manhattan and the pair of segments is one horizontal, one vertical. *)
Lemma corner_total (ways : list segment) (o_start o_mid : Q) (om : list Q) (i j : nat) :
  nth_error om i = Some o_mid ->
  Forall (fun s => manhattan_segment s = true) ways ->
  (j < length ways)%nat ->
  (forall s s', (0 < j)%nat -> nth_error ways j = Some s ->
                nth_error ways (j - 1) = Some s' -> one_h_one_v s s' = true) ->
  exists c, corner ways o_start om i j = Ok c.
Proof.
  intros Hom Hall Hj Hpair. rewrite Forall_forall in Hall.
  destruct (index_lt ways Hj) as [seg Hseg]. unfold corner. rewrite Hseg. cbn [bind].
  assert (Hm : manhattan_segment seg = true).
  { apply Hall. apply index_ok in Hseg. eapply nth_error_In; eassumption. }
  destruct j as [|j].
  - cbn [Nat.eqb bind].
    destruct (make_segment_total seg o_start Hm) as [d Hd]. rewrite Hd. cbn [bind]. eauto.
  - cbn [Nat.eqb]. apply index_ok in Hom. rewrite Hom. cbn [bind].
    destruct (make_segment_total seg o_mid Hm) as [d Hd]. rewrite Hd. cbn [bind].
    assert (Hj' : (S j - 1 < length ways)%nat) by lia.
    destruct (index_lt ways Hj') as [ps Hps]. rewrite Hps. cbn [bind].
    assert (Hm' : manhattan_segment ps = true).
    { apply Hall. apply index_ok in Hps. eapply nth_error_In; eassumption. }
    destruct (make_segment_total ps (if (j =? 0)%nat then o_start else o_mid) Hm') as [t Ht].
    rewrite Ht. cbn [bind]. apply intersection_total.
    rewrite (one_h_one_v_displaced _ _ _ _ Hd Ht).
    apply index_ok in Hseg, Hps. apply Hpair; auto. lia.
Qed.

(** The first pair of consecutive segments that is not one horizontal, one
    vertical aborts the route of the port. *)
Lemma port_route_bad_pair (ways : list segment) (ports2 : list Port) (ea : Z)
    (os om : list Q) (i j : nat) (o_start o_mid : Q) (seg prev_seg : segment) :
  nth_error os i = Some o_start ->
  nth_error om i = Some o_mid ->
  Forall (fun s => manhattan_segment s = true) ways ->
  (0 < j)%nat ->
  nth_error ways j = Some seg ->
  nth_error ways (j - 1) = Some prev_seg ->
  (forall k s s', (0 < k < j)%nat -> nth_error ways k = Some s ->
                  nth_error ways (k - 1) = Some s' -> one_h_one_v s s' = true) ->
  one_h_one_v seg prev_seg = false ->
  port_route ways ports2 ea os om i = Error NonManhattanIntersection.
Proof.
  intros Hos Hom Hall Hj Hseg Hprev Hbefore Hbad.
  assert (Hlt : (j < length ways)%nat) by (apply nth_error_Some; congruence).
  rewrite port_route_closed. apply index_ok in Hos. rewrite Hos. cbn [bind].
  rewrite (seq_split_at Hlt).
  rewrite mapM_first_error with (e := NonManhattanIntersection); [reflexivity| |].
  - intros k Hk. apply in_seq in Hk.
    apply corner_total with (o_mid := o_mid); auto; [lia|].
    intros s s' Hk0 Hs Hs'. apply (Hbefore k); auto. lia.
  - rewrite Forall_forall in Hall.
    assert (Hm : manhattan_segment seg = true) by (apply Hall; eapply nth_error_In; eassumption).
    assert (Hm' : manhattan_segment prev_seg = true)
      by (apply Hall; eapply nth_error_In; eassumption).
    unfold corner. apply index_ok in Hseg, Hprev, Hom. rewrite Hseg. cbn [bind].
    replace (j =? 0)%nat with false by (symmetry; apply Nat.eqb_neq; lia).
    rewrite Hom. cbn [bind].
    destruct (make_segment_total seg o_mid Hm) as [d Hd]. rewrite Hd. cbn [bind].
    rewrite Hprev. cbn [bind].
    destruct (make_segment_total prev_seg (if (j =? 1)%nat then o_start else o_mid) Hm')
      as [t Ht].
    rewrite Ht. cbn [bind]. apply intersection_error.
    rewrite (one_h_one_v_displaced _ _ _ _ Hd Ht). assumption.
Qed.

(** C2. In the route of every port, the corner of segment [j > 0] is the
    intersection of the current segment displaced by the mid-path offset
    with the previous segment displaced by the previous offset (the start
    offset when [j = 1]); the horizontal one of the two gives the corner's
    Y, the vertical one its X.  The route holds that corner at index [j]
    (the last corner after snapping to the end point).  A pair that is not
    one horizontal, one vertical makes [_intersection] fail with
    [NonManhattanIntersection], and the first such pair of a path makes the
    computation of the route fail with it.  From index 1 on, a route that
    the kernel returns is the route computed for its port. *)
Theorem corner_is_intersection :
  (forall ways ports2 ea os om i route,
     port_route ways ports2 ea os om i = Ok route ->
     forall j, (0 < j < length ways)%nat ->
     exists seg prev_seg o_start o_mid d_seg tmp_seg sh sv p2,
       nth_error ways j = Some seg /\ nth_error ways (j - 1) = Some prev_seg
       /\ nth_error os i = Some o_start /\ nth_error om i = Some o_mid
       /\ _make_segment seg o_mid = Ok d_seg
       /\ _make_segment prev_seg (if (j =? 1)%nat then o_start else o_mid) = Ok tmp_seg
       /\ (sh = d_seg /\ sv = tmp_seg \/ sh = tmp_seg /\ sv = d_seg)
       /\ _is_horizontal sh = true /\ _is_vertical sv = true
       /\ _intersection d_seg tmp_seg = Ok (px (fst sv), py (fst sh))
       /\ nth_error ports2 i = Some p2
       /\ nth_error route j
          = Some (if (j =? length ways - 1)%nat
                  then snapped ea (px (fst sv), py (fst sh)) (position p2)
                  else (px (fst sv), py (fst sh))))
  /\ (forall s1 s2,
        one_h_one_v s1 s2 = false ->
        _intersection s1 s2 = Error NonManhattanIntersection)
  /\ (forall ways ports2 ea os om i j o_start o_mid seg prev_seg,
        nth_error os i = Some o_start ->
        nth_error om i = Some o_mid ->
        Forall (fun s => manhattan_segment s = true) ways ->
        (0 < j)%nat ->
        nth_error ways j = Some seg ->
        nth_error ways (j - 1) = Some prev_seg ->
        (forall k s s', (0 < k < j)%nat -> nth_error ways k = Some s ->
                        nth_error ways (k - 1) = Some s' -> one_h_one_v s s' = true) ->
        one_h_one_v seg prev_seg = false ->
        port_route ways ports2 ea os om i = Error NonManhattanIntersection)
  /\ (forall gpa rfa ports1 ports2 waypoints separation routes i route,
        _generate_manhattan_bundle_waypoints gpa rfa ports1 ports2 waypoints separation
        = Ok routes ->
        nth_error routes i = Some route ->
        exists path ref o_start o_mid p0 q0 raw,
          rfa waypoints = Ok path /\ nth_error path 0 = Some ref
          /\ get_ports_x_or_y_distances gpa ports1 ref = Ok o_start
          /\ mid_offsets separation o_start = Ok o_mid
          /\ nth_error ports1 0 = Some p0 /\ nth_error ports2 0 = Some q0
          /\ port_route (combine path (tl path)) ports2 (orientation q0)
               (flip_offsets (orientation p0) o_start)
               (flip_offsets (orientation p0) o_mid) i = Ok raw
          /\ forall j, (0 < j)%nat -> nth_error route j = nth_error raw j).
Proof.
  split; [|split; [|split]].
  - intros ways ports2 ea os om i route H j Hj.
    destruct (port_route_corners _ _ _ _ _ _ H) as [[Hw _]|(o_start & p2 & Hos & Hp2 & _ & _ & Hc)].
    { subst ways. simpl in Hj. lia. }
    destruct (Hc j) as (c & Hcorner & Hnth); [lia|].
    assert (Hpos : (0 < j)%nat) by lia.
    destruct (corner_pos _ _ _ _ Hpos Hcorner)
      as (seg & prev_seg & o_mid & d_seg & tmp_seg & Hs & Hps & Hom & Hd & Ht & Hi).
    destruct (intersection_spec _ _ Hi) as (sh & sv & Hrole & Hh & Hv & Hceq).
    subst c.
    exists seg, prev_seg, o_start, o_mid, d_seg, tmp_seg, sh, sv, p2.
    auto 15.
  - exact intersection_error.
  - exact port_route_bad_pair.
  - intros gpa rfa ports1 ports2 waypoints separation routes i route H Hroute.
    destruct (kernel_stages _ _ _ _ _ _ H) as [path ref os om p0 q0 raw Hpath _ _ _ _ Hq0 _ _].
    apply index_ok in Hq0.
    destruct (@kernel_route gpa rfa ports1 ports2 waypoints separation routes path q0
                i route H Hpath Hq0 Hroute)
      as (p0' & p1 & ref' & os' & om' & r0 & rest & Hp0 & Hp1 & Href & Hos & Hom & Hport & ->).
    exists path, ref', os', om', p0', q0, (r0 :: rest).
    repeat split; auto.
    intros j Hj. destruct j as [|j]; [lia|reflexivity].
Qed.

(** ** Mid-path offsets *)

Lemma supplied_nonzero (sep : Q) : ~ sep == 0 -> supplied (Some sep) = Some sep.
Proof.
  intros H. unfold supplied. destruct (Qeq_bool sep 0) eqn:E; [|reflexivity].
  apply Qeq_bool_iff in E. contradiction.
Qed.

Lemma Qeq_bool_false (a b : Q) : ~ a == b -> Qeq_bool a b = false.
Proof.
  intros H. destruct (Qeq_bool a b) eqn:E; [|reflexivity].
  apply Qeq_bool_iff in E. contradiction.
Qed.

Lemma Qeq_bool_true (a b : Q) : a == b -> Qeq_bool a b = true.
Proof. apply Qeq_bool_iff. Qed.

Lemma map_fst_enumerate {A B : Type} (g : nat -> B) (l : list A) :
  map (fun io : nat * A => g (fst io)) (enumerate l) = map g (seq 0 (length l)).
Proof.
  unfold enumerate. generalize 0%nat. induction l as [|a l IH]; intros k; cbn.
  - reflexivity.
  - rewrite IH. reflexivity.
Qed.

Lemma scaled_indices (read : result Q) (o sep : Q) (l : list Q) :
  read = Ok o ->
  mapM (fun io : nat * Q => v <- read ;; Ok (Qsign v * sep * inject_Z (Z.of_nat (fst io))))
       (enumerate l)
  = Ok (map (fun k => Qsign o * sep * inject_Z (Z.of_nat k)) (seq 0 (length l))).
Proof.
  intros H. rewrite H. cbn [bind].
  rewrite (mapM_pure (fun io : nat * Q => Qsign o * sep * inject_Z (Z.of_nat (fst io)))).
  rewrite (map_fst_enumerate (fun k => Qsign o * sep * inject_Z (Z.of_nat k))).
  reflexivity.
Qed.

Lemma index_neg_ok {A : Type} (l : list A) (k : nat) (a : A) :
  (1 <= k <= length l)%nat -> nth_error l (length l - k) = Some a -> index_neg l k = Ok a.
Proof.
  intros Hk H. unfold index_neg.
  replace (k <=? length l)%nat with true by (symmetry; apply Nat.leb_le; lia).
  apply index_ok. assumption.
Qed.

(** First branch: the first start offset is zero. *)
Lemma mid_offsets_first_zero (sep : Q) (offsets : list Q) (o_first o_second : Q) :
  ~ sep == 0 ->
  nth_error offsets 0 = Some o_first ->
  nth_error offsets 1 = Some o_second ->
  o_first == 0 ->
  mid_offsets (Some sep) offsets
  = Ok (map (fun k => Qsign o_second * sep * inject_Z (Z.of_nat k))
            (seq 0 (length offsets))).
Proof.
  intros Hsep H0 H1 Hz. unfold mid_offsets. rewrite (supplied_nonzero Hsep).
  apply index_ok in H0, H1. rewrite H0. cbn [bind].
  rewrite (Qeq_bool_true Hz). apply scaled_indices. assumption.
Qed.

(** Second branch: only the last start offset is zero. *)
Lemma mid_offsets_last_zero (sep : Q) (offsets : list Q) (o_first o_penult o_last : Q) :
  ~ sep == 0 ->
  (2 <= length offsets)%nat ->
  nth_error offsets 0 = Some o_first ->
  nth_error offsets (length offsets - 2) = Some o_penult ->
  nth_error offsets (length offsets - 1) = Some o_last ->
  ~ o_first == 0 ->
  o_last == 0 ->
  mid_offsets (Some sep) offsets
  = Ok (rev (map (fun k => Qsign o_penult * sep * inject_Z (Z.of_nat k))
                 (seq 0 (length offsets)))).
Proof.
  intros Hsep Hlen H0 Hp Hl Hnz Hz. unfold mid_offsets. rewrite (supplied_nonzero Hsep).
  apply index_ok in H0. rewrite H0. cbn [bind].
  rewrite (Qeq_bool_false Hnz).
  rewrite (@index_neg_ok _ offsets 1 o_last) by (auto; lia). cbn [bind].
  rewrite (Qeq_bool_true Hz).
  rewrite (@scaled_indices (index_neg offsets 2) o_penult sep offsets)
    by (apply index_neg_ok; auto; lia).
  reflexivity.
Qed.

(** No branch: neither the first nor the last start offset is zero. *)
Lemma mid_offsets_ambiguous (sep : Q) (offsets : list Q) (o_first o_last : Q) :
  ~ sep == 0 ->
  nth_error offsets 0 = Some o_first ->
  nth_error offsets (length offsets - 1) = Some o_last ->
  ~ o_first == 0 ->
  ~ o_last == 0 ->
  mid_offsets (Some sep) offsets = Error AmbiguousSeparation.
Proof.
  intros Hsep H0 Hl Hnz Hnz'. unfold mid_offsets. rewrite (supplied_nonzero Hsep).
  assert (Hlen : (1 <= length offsets)%nat).
  { destruct offsets; [discriminate|simpl; lia]. }
  apply index_ok in H0. rewrite H0. cbn [bind].
  rewrite (Qeq_bool_false Hnz).
  rewrite (@index_neg_ok _ offsets 1 o_last) by (auto; lia). cbn [bind].
  rewrite (Qeq_bool_false Hnz'). reflexivity.
Qed.

Lemma kernel_mid_error (gpa : list Port -> result Z)
    (rfa : list point -> result (list point)) (ports1 ports2 : list Port)
    (waypoints : list point) (separation : option Q) (path : list point) (ref : point)
    (os : list Q) (e : error) :
  rfa waypoints = Ok path ->
  nth_error path 0 = Some ref ->
  get_ports_x_or_y_distances gpa ports1 ref = Ok os ->
  mid_offsets separation os = Error e ->
  _generate_manhattan_bundle_waypoints gpa rfa ports1 ports2 waypoints separation = Error e.
Proof.
  intros Hpath Href Hos Hmid. unfold _generate_manhattan_bundle_waypoints.
  rewrite Hpath. cbn [bind]. apply index_ok in Href. rewrite Href. cbn [bind].
  rewrite Hos. cbn [bind]. rewrite Hmid. reflexivity.
Qed.

(** C3, as the code has it. With a separation other than zero and at least
    two ports: if the first start offset is zero, the mid-path offsets are
    [sign(second start offset) * separation * index]; otherwise, if the last
    start offset is zero, they are
    [sign(second-to-last start offset) * separation * index] in reverse
    order; if neither is zero the computation of the offsets, and with it
    the call of the kernel, fails with [AmbiguousSeparation].
    For start offsets [0, 3, 7] and separation 5 they are [0, 5, 10]. *)
Theorem mid_offsets_with_separation :
  (forall sep offsets o_first o_second o_penult o_last,
     ~ sep == 0 ->
     (2 <= length offsets)%nat ->
     nth_error offsets 0 = Some o_first ->
     nth_error offsets 1 = Some o_second ->
     nth_error offsets (length offsets - 2) = Some o_penult ->
     nth_error offsets (length offsets - 1) = Some o_last ->
     (o_first == 0 ->
      mid_offsets (Some sep) offsets
      = Ok (map (fun k => Qsign o_second * sep * inject_Z (Z.of_nat k))
                (seq 0 (length offsets))))
     /\ (~ o_first == 0 -> o_last == 0 ->
         mid_offsets (Some sep) offsets
         = Ok (rev (map (fun k => Qsign o_penult * sep * inject_Z (Z.of_nat k))
                        (seq 0 (length offsets)))))
     /\ (~ o_first == 0 -> ~ o_last == 0 ->
         mid_offsets (Some sep) offsets = Error AmbiguousSeparation))
  /\ (forall gpa rfa ports1 ports2 waypoints separation path ref offsets,
        rfa waypoints = Ok path ->
        nth_error path 0 = Some ref ->
        get_ports_x_or_y_distances gpa ports1 ref = Ok offsets ->
        mid_offsets separation offsets = Error AmbiguousSeparation ->
        _generate_manhattan_bundle_waypoints gpa rfa ports1 ports2 waypoints separation
        = Error AmbiguousSeparation)
  /\ mid_offsets (Some 5) [0; 3; 7] = Ok [0; 5; 10].
Proof.
  split; [|split; [intros; eapply kernel_mid_error; eassumption|reflexivity]].
  intros sep offsets o_first o_second o_penult o_last Hsep Hlen H0 H1 Hp Hl.
  split; [|split].
  - intros Hz. eapply mid_offsets_first_zero; eassumption.
  - intros Hnz Hz. eapply mid_offsets_last_zero; eassumption.
  - intros Hnz Hnz'. eapply mid_offsets_ambiguous; eassumption.
Qed.

(** C9. With a separation supplied and both the first and the last start
    offset zero (two ports or more), no error is raised: the first branch is
    taken and the mid-path offsets are
    [sign(second start offset) * separation * index]. *)
Theorem both_ends_zero_first_branch (sep : Q) (offsets : list Q)
    (o_first o_second o_last : Q) :
  ~ sep == 0 ->
  (2 <= length offsets)%nat ->
  nth_error offsets 0 = Some o_first ->
  nth_error offsets 1 = Some o_second ->
  nth_error offsets (length offsets - 1) = Some o_last ->
  o_first == 0 ->
  o_last == 0 ->
  mid_offsets (Some sep) offsets
  = Ok (map (fun k => Qsign o_second * sep * inject_Z (Z.of_nat k))
            (seq 0 (length offsets)))
  /\ mid_offsets (Some sep) offsets <> Error AmbiguousSeparation.
Proof.
  intros Hsep Hlen H0 H1 Hl Hz Hz'.
  rewrite (@mid_offsets_first_zero sep offsets o_first o_second Hsep H0 H1 Hz). split; [reflexivity|discriminate].
Qed.

(** ** Start offsets and the single-port bundle *)

Lemma distances_spec (gpa : list Port -> result Z) (list_ports : list Port)
    (ref : point) (a : Z) :
  gpa list_ports = Ok a ->
  get_ports_x_or_y_distances gpa list_ports ref = Ok (map (start_offset a ref) list_ports).
Proof.
  intros H. unfold get_ports_x_or_y_distances, start_offset.
  destruct list_ports as [|p ps]; [reflexivity|].
  rewrite H. cbn [bind]. destruct (angle_in a [0; 180]%Z); reflexivity.
Qed.

Lemma distances_length (gpa : list Port -> result Z) (list_ports : list Port)
    (ref : point) (offsets : list Q) :
  get_ports_x_or_y_distances gpa list_ports ref = Ok offsets ->
  length offsets = length list_ports.
Proof.
  unfold get_ports_x_or_y_distances. destruct list_ports as [|p ps].
  - intros H. inversion H. reflexivity.
  - destruct (gpa (p :: ps)); cbn [bind]; [|discriminate].
    destruct (angle_in a [0; 180]%Z); intros H; inversion H; cbn [length]; rewrite length_map; reflexivity.
Qed.

Lemma mid_offsets_single (sep o : Q) :
  ~ sep == 0 ->
  mid_offsets (Some sep) [o]
  = if Qeq_bool o 0 then Error IndexError else Error AmbiguousSeparation.
Proof.
  intros Hsep. unfold mid_offsets. rewrite (supplied_nonzero Hsep).
  cbn [index nth_error bind]. destruct (Qeq_bool o 0) eqn:E.
  - reflexivity.
  - unfold index_neg. cbn. rewrite E. reflexivity.
Qed.

(** C10. With a single port and a separation other than zero the kernel
    never returns: when the lone start offset is zero the read of
    [offsets_start[1]] is out of range, otherwise the call raises
    [AmbiguousSeparation]. *)
Theorem single_port_separation_fails (gpa : list Port -> result Z)
    (rfa : list point -> result (list point)) (p : Port) (ports2 : list Port)
    (waypoints : list point) (sep : Q) :
  ~ sep == 0 ->
  (forall routes,
     _generate_manhattan_bundle_waypoints gpa rfa [p] ports2 waypoints (Some sep)
     <> Ok routes)
  /\ (forall path ref a,
        rfa waypoints = Ok path -> nth_error path 0 = Some ref -> gpa [p] = Ok a ->
        (start_offset a ref p == 0 ->
         _generate_manhattan_bundle_waypoints gpa rfa [p] ports2 waypoints (Some sep)
         = Error IndexError)
        /\ (~ start_offset a ref p == 0 ->
            _generate_manhattan_bundle_waypoints gpa rfa [p] ports2 waypoints (Some sep)
            = Error AmbiguousSeparation)).
Proof.
  intros Hsep. split.
  - intros routes H. destruct (kernel_stages _ _ _ _ _ _ H).
    pose proof (distances_length _ _ _ Hstart) as Hlen.
    destruct o_start as [|o [|o' rest]]; try discriminate.
    rewrite (mid_offsets_single o Hsep) in Hmid.
    destruct (Qeq_bool o 0); discriminate.
  - intros path ref a Hpath Href Ha.
    unfold _generate_manhattan_bundle_waypoints.
    rewrite Hpath. cbn [bind]. apply index_ok in Href. rewrite Href. cbn [bind].
    rewrite (distances_spec _ _ ref Ha). cbn [map bind].
    rewrite (mid_offsets_single _ Hsep). split; intros Ho.
    + rewrite (Qeq_bool_true Ho). reflexivity.
    + rewrite (Qeq_bool_false Ho). reflexivity.
Qed.

Lemma flip_offsets_spec (a : Z) (offsets : list Q) :
  flip_offsets a offsets
  = map (fun d => if angle_in a [90; 270]%Z then - d else d) offsets.
Proof.
  unfold flip_offsets. destruct (angle_in a [90; 270]%Z); [reflexivity|].
  symmetry. apply map_id.
Qed.

(** C5. The start offset of each port is [port.y - reference.y] when the
    orientation of the bundle is 0 or 180 and [port.x - reference.x]
    otherwise; when the first port of the bundle faces 90 or 270, every
    start and mid offset changes sign, and the routes are displaced by the
    offsets after that change. *)
Theorem offsets_follow_orientation :
  (forall gpa list_ports ref a,
     gpa list_ports = Ok a ->
     get_ports_x_or_y_distances gpa list_ports ref
     = Ok (map (fun p => if angle_in a [0; 180]%Z then y p - py ref else x p - px ref)
               list_ports))
  /\ (forall a offsets,
        flip_offsets a offsets
        = map (fun d => if angle_in a [90; 270]%Z then - d else d) offsets)
  /\ (forall gpa rfa ports1 ports2 waypoints separation routes,
        _generate_manhattan_bundle_waypoints gpa rfa ports1 ports2 waypoints separation
        = Ok routes ->
        exists path ref o_start o_mid p0 q0,
          rfa waypoints = Ok path /\ nth_error path 0 = Some ref
          /\ get_ports_x_or_y_distances gpa ports1 ref = Ok o_start
          /\ mid_offsets separation o_start = Ok o_mid
          /\ nth_error ports1 0 = Some p0 /\ nth_error ports2 0 = Some q0
          /\ forall i p1, nth_error ports1 i = Some p1 ->
             exists raw,
               port_route (combine path (tl path)) ports2 (orientation q0)
                 (flip_offsets (orientation p0) o_start)
                 (flip_offsets (orientation p0) o_mid) i = Ok raw
               /\ nth_error routes i = Some (midpoint p1 :: tl raw)).
Proof.
  split; [|split].
  - intros gpa list_ports ref a Ha. apply distances_spec. assumption.
  - exact flip_offsets_spec.
  - intros gpa rfa ports1 ports2 waypoints separation routes H.
    destruct (kernel_stages _ _ _ _ _ _ H).
    exists path, ref, o_start, o_mid, p0, q0.
    apply index_ok in Href, Hp0, Hq0. repeat split; auto.
    intros i p1 Hp1.
    destruct (routes_shape _ _ _ _ _ _ _ Hraw Hroutes Hp1)
      as (o_i & cs & front & c & p2 & _ & _ & _ & _ & Hport & Hroute).
    eauto.
Qed.

(** ** Displacement *)

(** C4, as the code has it. A segment that is horizontal and not vertical
    within the tolerance is moved by [(0, +1 * sign(x1 - x0) * a)]; one that
    is vertical and not horizontal by [(-1 * sign(y1 - y0) * a, 0)]; one
    that is neither makes the displacement fail.  The kernel displaces
    every segment this way. *)
Theorem displace_group1_handedness (s : segment) (a : Q) :
  (_is_horizontal s = true -> _is_vertical s = false ->
   _displace_segment_copy_group1 s a
   = Ok (translate s (0, 1 * Qsign (px (snd s) - px (fst s)) * a)))
  /\ (_is_vertical s = true -> _is_horizontal s = false ->
      _displace_segment_copy_group1 s a
      = Ok (translate s (-1 * Qsign (py (snd s) - py (fst s)) * a, 0)))
  /\ (_is_horizontal s = false -> _is_vertical s = false ->
      _displace_segment_copy_group1 s a = Error SegmentNotManhattan)
  /\ _make_segment = _displace_segment_copy_group1.
Proof.
  pose proof (make_segment_cases s a) as H. unfold _make_segment in H.
  repeat split.
  - intros Hh Hv. rewrite H, Hh, Hv. reflexivity.
  - intros Hv Hh. rewrite H, Hh, Hv. reflexivity.
  - intros Hh Hv. rewrite H, Hh, Hv. reflexivity.
Qed.

(** C4 as stated fails on a vertical segment shorter than the tolerance: it
    points up, so the claim moves it by [(-a, 0)], and the code, which tests
    for a horizontal segment first, moves it by [(0, +a)]. *)
Lemma displace_short_vertical_counterexample :
  _is_vertical short_vertical = true
  /\ _segment_sign short_vertical = Some 1
  /\ _displace_segment_copy_group1 short_vertical 1
     = Ok ((0, 1), (0, 1000001 # 1000000))
  /\ translate short_vertical (-1 * 1 * 1, 0) = ((-1, 0), (-1, 1 # 1000000))
  /\ _displace_segment_copy_group1 short_vertical 1
     <> Ok (translate short_vertical (-1 * 1 * 1, 0)).
Proof.
  repeat split; try reflexivity. vm_compute. discriminate.
Qed.

(** ** The entry point *)



Section EntryPoint.

Variable get_list_ports_angle : list Port -> result Z.
Variable remove_flat_angles : list point -> result (list point).
Variables CrossSection Bend Taper Route : Type.
Variable cross_section : result CrossSection.
Variable bend_factory : result Bend.
Variable taper_of : CrossSection -> Port -> result (option Taper).
Variable round_corners : list point -> Bend -> option Taper -> result Route.

Local Notation "'entry'" :=
  (get_bundle_from_waypoints get_list_ports_angle remove_flat_angles
     cross_section bend_factory taper_of round_corners).



End EntryPoint.

(** ** In-place normalization of the orientations *)

Lemma int_inject_Z (z : Z) : int (inject_Z z) = z.
Proof. unfold int. cbn. apply Z.quot_1_r. Qed.

Lemma normalize_angles_cons (p : addr) (ps : list addr) (h : store) :
  normalize_angles (p :: ps) h
  = normalize_angles ps (set_angle h p (int (obj_angle (h p)) mod 360)%Z).
Proof. reflexivity. Qed.

Lemma normalize_angles_frame (ps : list addr) :
  forall (h : store) (b : addr),
  obj_midpoint (normalize_angles ps h b) = obj_midpoint (h b)
  /\ obj_width (normalize_angles ps h b) = obj_width (h b).
Proof.
  induction ps as [|p ps IH]; intros h b.
  - auto.
  - rewrite normalize_angles_cons.
    destruct (IH (set_angle h p (int (obj_angle (h p)) mod 360)%Z) b) as [Hm Hw].
    rewrite Hm, Hw. unfold set_angle. destruct (b =? p)%nat; auto.
Qed.

Lemma normalize_angles_orientation (ps : list addr) :
  forall (h : store) (b : addr),
  (In b ps ->
   obj_angle (normalize_angles ps h b) = inject_Z (int (obj_angle (h b)) mod 360))
  /\ (~ In b ps -> normalize_angles ps h b = h b).
Proof.
  induction ps as [|p ps IH]; intros h b.
  - split; [intros []|reflexivity].
  - rewrite normalize_angles_cons.
    set (h' := set_angle h p (int (obj_angle (h p)) mod 360)%Z).
    destruct (IH h' b) as [Hin Hout].
    assert (Hp : obj_angle (h' p) = inject_Z (int (obj_angle (h p)) mod 360)).
    { unfold h', set_angle. rewrite Nat.eqb_refl. reflexivity. }
    assert (Hother : b <> p -> h' b = h b).
    { intros Hne. unfold h', set_angle. apply Nat.eqb_neq in Hne. rewrite Hne. reflexivity. }
    split.
    + intros [Heq|Hb].
      * subst b. destruct (in_dec Nat.eq_dec p ps) as [Hi|Hni].
        -- rewrite (Hin Hi), Hp, int_inject_Z, Z.mod_mod by discriminate. reflexivity.
        -- rewrite (Hout Hni). assumption.
      * rewrite (Hin Hb). destruct (Nat.eq_dec b p) as [Heq|Hne].
        -- subst b. rewrite Hp, int_inject_Z, Z.mod_mod by discriminate. reflexivity.
        -- rewrite (Hother Hne). reflexivity.
    + intros Hn. rewrite Hout by (intros Hb; apply Hn; right; assumption).
      apply Hother. intros Heq. apply Hn. left. congruence.
Qed.

Lemma normalize_angles_small (ps : list addr) (h : store) (b : addr) (z : Z) :
  obj_angle (h b) = inject_Z z -> (0 <= z < 360)%Z -> normalize_angles ps h b = h b.
Proof.
  revert h. induction ps as [|p ps IH]; intros h Hz Hr.
  - reflexivity.
  - rewrite normalize_angles_cons.
    assert (Hsame : set_angle h p (int (obj_angle (h p)) mod 360)%Z b = h b).
    { unfold set_angle. destruct (b =? p)%nat eqn:E; [|reflexivity].
      apply Nat.eqb_eq in E. subst p.
      rewrite Hz, int_inject_Z, Z.mod_small by assumption.
      rewrite <- Hz. destruct (h b); reflexivity. }
    rewrite IH; [exact Hsame | rewrite Hsame; exact Hz | exact Hr].
Qed.

(** The angles after both loops. *)
Lemma normalize_both (ps1 ps2 : list addr) (h : store) (b : addr) :
  let h' := normalize_angles ps2 (normalize_angles ps1 h) in
  obj_midpoint (h' b) = obj_midpoint (h b)
  /\ obj_width (h' b) = obj_width (h b)
  /\ (In b (ps1 ++ ps2) ->
      obj_angle (h' b) = inject_Z (int (obj_angle (h b)) mod 360))
  /\ (~ In b (ps1 ++ ps2) -> h' b = h b)
  /\ (forall z, obj_angle (h b) = inject_Z z -> (0 <= z < 360)%Z -> h' b = h b).
Proof.
  cbn zeta.
  destruct (normalize_angles_frame ps2 (normalize_angles ps1 h) b) as [Hm2 Hw2].
  destruct (normalize_angles_frame ps1 h b) as [Hm1 Hw1].
  destruct (normalize_angles_orientation ps2 (normalize_angles ps1 h) b) as [Hin2 Hout2].
  destruct (normalize_angles_orientation ps1 h b) as [Hin1 Hout1].
  repeat split.
  - congruence.
  - congruence.
  - intros Hb. apply in_app_or in Hb.
    destruct (in_dec Nat.eq_dec b ps2) as [Hi2|Hn2];
      destruct (in_dec Nat.eq_dec b ps1) as [Hi1|Hn1].
    + rewrite (Hin2 Hi2), (Hin1 Hi1), int_inject_Z, Z.mod_mod by discriminate.
      reflexivity.
    + rewrite (Hin2 Hi2), (Hout1 Hn1). reflexivity.
    + rewrite (Hout2 Hn2), (Hin1 Hi1). reflexivity.
    + tauto.
  - intros Hn. rewrite Hout2, Hout1; auto; intros Hb; apply Hn; apply in_or_app; auto.
  - intros z Hz Hr.
    assert (H1 : normalize_angles ps1 h b = h b)
      by (eapply normalize_angles_small; eassumption).
    rewrite (@normalize_angles_small ps2 (normalize_angles ps1 h) b z);
      rewrite ?H1; auto.
Qed.

Section EntryPointStore.

Variable get_list_ports_angle : list Port -> result Z.
Variable remove_flat_angles : list point -> result (list point).
Variables CrossSection Bend Taper Route : Type.
Variable cross_section : result CrossSection.
Variable bend_factory : result Bend.
Variable taper_of : CrossSection -> Port -> result (option Taper).
Variable round_corners : list point -> Bend -> option Taper -> result Route.

Local Notation "'entry'" :=
  (get_bundle_from_waypoints get_list_ports_angle remove_flat_angles
     cross_section bend_factory taper_of round_corners).

Lemma entry_store (w : world) (waypoints : list point) (sort_ports : bool)
    (separation : option Q) :
  length (bundle2 w) <> length (bundle1 w)
  /\ snd (entry w waypoints sort_ports separation) = w
  \/ length (bundle2 w) = length (bundle1 w)
     /\ ports (snd (entry w waypoints sort_ports separation))
        = normalize_angles (bundle2 w) (normalize_angles (bundle1 w) (ports w)).
Proof.
  unfold get_bundle_from_waypoints.
  destruct (length (bundle2 w) =? length (bundle1 w))%nat eqn:Elen; cbn [negb].
  - right. apply Nat.eqb_eq in Elen. split; [assumption|].
    destruct (index (bundle1 w) 0); [|reflexivity].
    destruct (index (bundle2 w) 0); [|reflexivity].
    destruct (lookup_sorttypes _) as [[sp_st ep_st]|e]; reflexivity.
  - left. apply Nat.eqb_neq in Elen. auto.
Qed.

(** C7, as the code has it. The entry point normalizes the orientation of
    the caller's ports in place: once the two bundles have the same length,
    every port of either bundle has its angle replaced by the integer
    [int(angle) % 360] (the fractional part dropped towards zero, then the
    remainder in [0, 360)), whatever the outcome of the call.  Positions and
    widths never change, ports outside the bundles never change, bundles of
    different lengths leave every port alone, and a port whose angle is
    already an integer in [0, 360) is left as it was. *)
Theorem ports_normalized_in_place (w : world) (waypoints : list point)
    (sort_ports : bool) (separation : option Q) (a : addr) :
  let w' := snd (entry w waypoints sort_ports separation) in
  obj_midpoint (ports w' a) = obj_midpoint (ports w a)
  /\ obj_width (ports w' a) = obj_width (ports w a)
  /\ (length (bundle2 w) = length (bundle1 w) ->
      In a (bundle1 w ++ bundle2 w) ->
      obj_angle (ports w' a) = inject_Z (int (obj_angle (ports w a)) mod 360))
  /\ (length (bundle2 w) <> length (bundle1 w) -> ports w' a = ports w a)
  /\ (~ In a (bundle1 w ++ bundle2 w) -> ports w' a = ports w a)
  /\ (forall z, obj_angle (ports w a) = inject_Z z -> (0 <= z < 360)%Z ->
      ports w' a = ports w a).
Proof.
  cbn zeta.
  destruct (entry_store w waypoints sort_ports separation) as [[Hne Hw]|[Heq Hw]];
    rewrite Hw.
  - repeat split; auto; intros Hlen; contradiction.
  - destruct (normalize_both (bundle1 w) (bundle2 w) (ports w) a)
      as (Hm & Hwd & Hin & Hout & Hsmall).
    repeat split; auto; intros Hne; contradiction.
Qed.

End EntryPointStore.

(** C7 as stated fails: two ports given with the orientation 360 (and two
    with 540) are routed, and the caller's objects carry 0 (and 180)
    afterwards. *)
Lemma caller_ports_mutated_counterexample :
  fst (sample_bundle turned_world [] true None)
  = Ok [[pt 0 0; pt 50 0]; [pt 0 10; pt 50 10]]
  /\ map (fun a => obj_angle (ports turned_world a)) [0; 1; 2; 3]%nat
     = [360; 360; 540; 540]
  /\ map (fun a => obj_angle (ports (snd (sample_bundle turned_world [] true None)) a))
         [0; 1; 2; 3]%nat
     = [0; 0; 180; 180].
Proof.
  split; [reflexivity|split; reflexivity].
Qed.

(** C3 as stated fails: with the first and the last start offset both zero
    the call does not fail (the first branch is taken); the sign is that of
    the second start offset even when it is zero; and in the second branch
    the multiples of the separation run from the last port backwards. *)
Lemma separation_branches_counterexample :
  mid_offsets (Some 5) [0; 3; 0] = Ok [0; 5; 10]
  /\ is_ok (generate [port_at 0 0 0; port_at 0 3 0; port_at 5 0 0]
                     [port_at 50 0 180; port_at 50 3 180; port_at 50 6 180]
                     [pt 0 0; pt 50 0] (Some 5)) = true
  /\ mid_offsets (Some 5) [0; 0; 5] = Ok [0; 0; 0]
  /\ mid_offsets (Some 5) [(-7) # 1; (-3) # 1; 0] = Ok [(-10) # 1; (-5) # 1; 0].
Proof.
  repeat split; reflexivity.
Qed.

(** ** Manhattan routes *)

Lemma Qeq_of_eq (a b : Q) : a = b -> a == b.
Proof. intros H. rewrite H. reflexivity. Qed.

Lemma pair_horizontal (p q : point) : py p == py q -> manhattan_pair p q = true.
Proof.
  intros H. unfold manhattan_pair, _is_horizontal.
  rewrite within_tol_zero; [reflexivity|]. rewrite H. ring.
Qed.

Lemma pair_vertical (p q : point) : px p == px q -> manhattan_pair p q = true.
Proof.
  intros H. unfold manhattan_pair, _is_vertical.
  rewrite (@within_tol_zero (px p - px q)); [apply orb_true_r|]. rewrite H. ring.
Qed.

Lemma snapped_pair (ea : Z) (c e : point) : manhattan_pair (snapped ea c e) e = true.
Proof.
  unfold snapped. destruct (angle_in ea [0; 180]%Z).
  - apply pair_horizontal. reflexivity.
  - apply pair_vertical. reflexivity.
Qed.

Lemma Qsign_pos (q : Q) : 0 < q -> Qsign q = 1.
Proof.
  intros H. unfold Qsign. destruct q as [n d]. unfold Qlt in H. cbn in *.
  replace (Z.sgn n) with 1%Z; [reflexivity|]. symmetry. apply Z.sgn_pos. lia.
Qed.

(** The corner of iteration [j >= 1] lies on the displaced segment [j]. *)
Lemma corner_on_own_segment (ways : list segment) (o_start : Q) (om : list Q)
    (i j : nat) (c : point) (seg : segment) (o_mid : Q) (d : segment) :
  (1 <= j)%nat ->
  corner ways o_start om i j = Ok c ->
  nth_error ways j = Some seg ->
  nth_error om i = Some o_mid ->
  _make_segment seg o_mid = Ok d ->
  (_is_vertical seg = false -> py c = py (fst d))
  /\ (_is_horizontal seg = false -> px c = px (fst d)).
Proof.
  intros Hj Hc Hseg Hom Hd.
  destruct (corner_pos _ _ _ _ Hj Hc)
    as (seg' & prev_seg & o_mid' & d' & t & Hs & Hps & Hom' & Hd' & Ht & Hi).
  assert (seg' = seg) by congruence. assert (o_mid' = o_mid) by congruence. subst.
  assert (d' = d) by congruence. subst.
  destruct (make_segment_ok _ _ Hd) as (Hh & Hv & _).
  destruct (intersection_spec _ _ Hi) as (sh & sv & Hrole & Hsh & Hsv & Hceq).
  subst c. cbn [px py fst snd].
  split; intros Hno; destruct Hrole as [[-> ->]|[-> ->]]; try reflexivity; congruence.
Qed.

(** The corner of iteration [j + 1] lies on the displaced segment [j]. *)
Lemma corner_on_previous_segment (ways : list segment) (o_start : Q) (om : list Q)
    (i j : nat) (c : point) (prev_seg : segment) :
  corner ways o_start om i (S j) = Ok c ->
  nth_error ways j = Some prev_seg ->
  exists seg o_mid t,
    nth_error ways (S j) = Some seg
    /\ nth_error om i = Some o_mid
    /\ _make_segment prev_seg (if (j =? 0)%nat then o_start else o_mid) = Ok t
    /\ (_is_vertical prev_seg = false -> _is_vertical seg = true /\ py c = py (fst t))
    /\ (_is_horizontal prev_seg = false -> _is_horizontal seg = true /\ px c = px (fst t)).
Proof.
  intros Hc Hprev.
  assert (Hpos : (0 < S j)%nat) by lia.
  destruct (corner_pos _ _ _ _ Hpos Hc)
    as (seg & prev_seg' & o_mid & d & t & Hs & Hps & Hom & Hd & Ht & Hi).
  replace (S j - 1)%nat with j in Hps by lia.
  assert (prev_seg' = prev_seg) by congruence. subst. cbn [Nat.eqb] in Ht.
  exists seg, o_mid, t. repeat split; auto;
    destruct (make_segment_ok _ _ Hd) as (Hh & Hv & _);
    destruct (make_segment_ok _ _ Ht) as (Hh' & Hv' & _);
    destruct (intersection_spec _ _ Hi) as (sh & sv & Hrole & Hsh & Hsv & Hceq);
    subst c; cbn [px py fst snd];
    destruct Hrole as [[-> ->]|[-> ->]]; try reflexivity; congruence.
Qed.

Lemma strict_cases (s : segment) :
  strict_segment s = true ->
  _is_horizontal s = true /\ _is_vertical s = false
  \/ _is_horizontal s = false /\ _is_vertical s = true.
Proof.
  unfold strict_segment. destruct (_is_horizontal s), (_is_vertical s); cbn; auto; discriminate.
Qed.

Lemma snapped_keeps_y (ea : Z) (c e : point) (s : segment) :
  strict_segment s = true -> _is_vertical s = true -> along_end_axis ea s = true ->
  py (snapped ea c e) = py c.
Proof.
  intros Hs Hv Ha. unfold snapped, along_end_axis in *.
  destruct (angle_in ea [0; 180]%Z); [|reflexivity].
  destruct (strict_cases _ Hs) as [[_ Hv']|[Hh' _]]; congruence.
Qed.

Lemma snapped_keeps_x (ea : Z) (c e : point) (s : segment) :
  strict_segment s = true -> _is_horizontal s = true -> along_end_axis ea s = true ->
  px (snapped ea c e) = px c.
Proof.
  intros Hs Hh Ha. unfold snapped, along_end_axis in *.
  destruct (angle_in ea [0; 180]%Z); [reflexivity|].
  destruct (strict_cases _ Hs) as [[_ Hv']|[Hh' _]]; congruence.
Qed.

(** The point that the route holds at index [j + 1 < length ways] keeps the
    coordinate that corner [j + 1] shares with the displaced segment [j]. *)
Lemma route_point_on_previous_segment (ways : list segment) (ea : Z) (o_start : Q)
    (om : list Q) (i j : nat) (c e : point) (prev_seg : segment) :
  Forall (fun s => strict_segment s = true) ways ->
  (forall s, nth_error ways (length ways - 1) = Some s -> along_end_axis ea s = true) ->
  corner ways o_start om i (S j) = Ok c ->
  nth_error ways j = Some prev_seg ->
  let q := if (S j =? length ways - 1)%nat then snapped ea c e else c in
  exists o_mid t,
    nth_error om i = Some o_mid
    /\ _make_segment prev_seg (if (j =? 0)%nat then o_start else o_mid) = Ok t
    /\ (_is_vertical prev_seg = false -> py q = py (fst t))
    /\ (_is_horizontal prev_seg = false -> px q = px (fst t)).
Proof.
  intros Hstrict Hend Hc Hprev q.
  destruct (corner_on_previous_segment _ _ _ _ _ Hc Hprev)
    as (seg & o_mid & t & Hseg & Hom & Ht & Hy & Hx).
  exists o_mid, t. repeat split; auto.
  - intros Hnv. destruct (Hy Hnv) as [Hv Hpy]. subst q.
    destruct (S j =? length ways - 1)%nat eqn:Elast; [|assumption].
    apply Nat.eqb_eq in Elast. rewrite <- Hpy.
    apply snapped_keeps_y with (s := seg); auto.
    + rewrite Forall_forall in Hstrict. apply Hstrict. eapply nth_error_In; eassumption.
    + apply Hend. rewrite <- Elast. assumption.
  - intros Hnh. destruct (Hx Hnh) as [Hh Hpx]. subst q.
    destruct (S j =? length ways - 1)%nat eqn:Elast; [|assumption].
    apply Nat.eqb_eq in Elast. rewrite <- Hpx.
    apply snapped_keeps_x with (s := seg); auto.
    + rewrite Forall_forall in Hstrict. apply Hstrict. eapply nth_error_In; eassumption.
    + apply Hend. rewrite <- Elast. assumption.
Qed.

(** After its first point, the route of a port is Manhattan. *)
Lemma port_route_manhattan_tail (ways : list segment) (ports2 : list Port) (ea : Z)
    (os om : list Q) (i : nat) (raw : list point) :
  port_route ways ports2 ea os om i = Ok raw ->
  Forall (fun s => strict_segment s = true) ways ->
  (forall s, nth_error ways (length ways - 1) = Some s -> along_end_axis ea s = true) ->
  forall j p q, (1 <= j)%nat ->
    nth_error raw j = Some p -> nth_error raw (S j) = Some q ->
    manhattan_pair p q = true.
Proof.
  intros Hport Hstrict Hend j p q Hj Hp Hq.
  destruct (port_route_corners _ _ _ _ _ _ Hport)
    as [[_ Hnil]|(o_start & p2 & Hos & Hp2 & Hlen & Hlast & Hc)].
  { subst raw. destruct j; discriminate. }
  assert (HSj : (S j < length raw)%nat) by (apply nth_error_Some; congruence).
  assert (Hjm : (j < length ways)%nat) by lia.
  destruct (Hc j Hjm) as (c & Hcorner & Hnth).
  rewrite Hp in Hnth. injection Hnth as Hpeq. subst p.
  destruct (j =? length ways - 1)%nat eqn:Elast.
  - apply Nat.eqb_eq in Elast.
    replace (S j) with (length ways) in Hq by lia.
    rewrite Hlast in Hq. inversion Hq. apply snapped_pair.
  - apply Nat.eqb_neq in Elast.
    assert (HSjm : (S j < length ways)%nat) by lia.
    destruct (Hc (S j) HSjm) as (c' & Hcorner' & Hnth').
    rewrite Hq in Hnth'. injection Hnth' as Hqeq. subst q.
    destruct (index_lt ways Hjm) as [seg Hseg]. apply index_ok in Hseg.
    destruct (@route_point_on_previous_segment ways ea o_start om i j c' (position p2)
                seg Hstrict Hend Hcorner' Hseg)
      as (o_mid & t & Hom & Ht & Hy & Hx).
    replace (j =? 0)%nat with false in Ht by (symmetry; apply Nat.eqb_neq; lia).
    destruct (@corner_on_own_segment ways o_start om i j c seg o_mid t
                Hj Hcorner Hseg Hom Ht) as [Hy' Hx'].
    assert (Hs : strict_segment seg = true).
    { rewrite Forall_forall in Hstrict. apply Hstrict. eapply nth_error_In; eassumption. }
    destruct (strict_cases _ Hs) as [[_ Hv]|[Hh _]].
    + apply pair_horizontal. apply Qeq_of_eq. rewrite (Hy' Hv). symmetry. exact (Hy Hv).
    + apply pair_vertical. apply Qeq_of_eq. rewrite (Hx' Hh). symmetry. exact (Hx Hh).
Qed.

(** The second point of the route of a port lies on the first segment as
    displaced by the start offset of the port. *)
Lemma port_route_second_point (ways : list segment) (ports2 : list Port) (ea : Z)
    (os om : list Q) (i : nat) (raw : list point) (s0 : segment) (o_i : Q) (q : point) :
  port_route ways ports2 ea os om i = Ok raw ->
  Forall (fun s => strict_segment s = true) ways ->
  (forall s, nth_error ways (length ways - 1) = Some s -> along_end_axis ea s = true) ->
  (2 <= length ways)%nat ->
  nth_error ways 0 = Some s0 ->
  nth_error os i = Some o_i ->
  nth_error raw 1 = Some q ->
  (_is_horizontal s0 = true -> _is_vertical s0 = false ->
   py q = py (fst s0) + 1 * Qsign (px (snd s0) - px (fst s0)) * o_i)
  /\ (_is_vertical s0 = true -> _is_horizontal s0 = false ->
      px q = px (fst s0) + -1 * Qsign (py (snd s0) - py (fst s0)) * o_i).
Proof.
  intros Hport Hstrict Hend Hlen Hs0 Hos Hq.
  destruct (port_route_corners _ _ _ _ _ _ Hport)
    as [[_ Hnil]|(o_start & p2 & Hos' & Hp2 & _ & _ & Hc)].
  { subst raw. discriminate. }
  assert (o_start = o_i) by congruence. subst o_start.
  assert (H1 : (1 < length ways)%nat) by lia.
  destruct (Hc 1%nat H1) as (c & Hcorner & Hnth).
  rewrite Hq in Hnth. injection Hnth as Hqeq.
  destruct (@route_point_on_previous_segment ways ea o_i om i 0%nat c (position p2)
              s0 Hstrict Hend Hcorner Hs0)
    as (o_mid & t & Hom & Ht & Hy & Hx).
  cbn [Nat.eqb] in Ht. rewrite make_segment_cases in Ht.
  split; intros Ha Hb; rewrite Ha, Hb in Ht; injection Ht as Hteq; subst t.
  - subst q. etransitivity; [exact (Hy Hb)|]. destruct s0 as [a b]. reflexivity.
  - subst q. etransitivity; [exact (Hx Hb)|]. destruct s0 as [a b]. reflexivity.
Qed.

Lemma angle_in_axes (a : Z) :
  angle_in a [0; 180]%Z = true -> angle_in a [90; 270]%Z = false.
Proof.
  unfold angle_in. cbn [existsb]. rewrite !orb_false_r.
  intros H. apply orb_prop in H. destruct H as [H|H]; apply Z.eqb_eq in H; subst a; reflexivity.
Qed.

Lemma first_segment_start (path : list point) (ref : point) (s0 : segment) :
  nth_error path 0 = Some ref ->
  nth_error (combine path (tl path)) 0 = Some s0 ->
  fst s0 = ref.
Proof.
  destruct path as [|r [|r' rest]]; cbn; intros H H'; try discriminate.
  injection H as <-. injection H' as <-. reflexivity.
Qed.

(** The start offset of port [i] after the sign flip. *)
Lemma flipped_start_offset (gpa : list Port -> result Z) (ports1 : list Port)
    (ref : point) (a : Z) (os : list Q) (i : nat) (p1 : Port) :
  gpa ports1 = Ok a ->
  get_ports_x_or_y_distances gpa ports1 ref = Ok os ->
  nth_error ports1 i = Some p1 ->
  nth_error (flip_offsets a os) i
  = Some (if angle_in a [90; 270]%Z then - start_offset a ref p1 else start_offset a ref p1).
Proof.
  intros Ha Hos Hp1. rewrite (distances_spec _ _ ref Ha) in Hos. injection Hos as <-.
  rewrite flip_offsets_spec, map_map. rewrite nth_error_map, Hp1. reflexivity.
Qed.

(** C6, as the code has it.  On a path of one segment every route is the
    pair of its two ports, the source port's position and the destination
    port's position, so it is horizontal or vertical exactly when the two
    ports are aligned within the tolerance.  On any path, let every segment
    of the normalized path be horizontal or vertical and not both, and let
    its last segment run along the axis of the destination ports.  Then in
    every route returned, every consecutive pair of points after the first
    point is horizontal or vertical.  The first pair is too when the path
    has two segments or more, the orientation of the source bundle is that
    of its first port, and the first segment leaves the source ports along
    their axis in the direction of growing coordinates. *)
Theorem routes_manhattan (gpa : list Port -> result Z)
    (rfa : list point -> result (list point))
    (ports1 ports2 : list Port) (waypoints : list point) (separation : option Q)
    (routes : list (list point)) (path : list point) (i : nat) (route : list point) :
  _generate_manhattan_bundle_waypoints gpa rfa ports1 ports2 waypoints separation
  = Ok routes ->
  rfa waypoints = Ok path ->
  nth_error routes i = Some route ->
  (@length segment (combine path (tl path)) = 1%nat ->
   exists p1 p2,
     nth_error ports1 i = Some p1 /\ nth_error ports2 i = Some p2
     /\ route = [midpoint p1; position p2]
     /\ ((forall j p q,
            nth_error route j = Some p -> nth_error route (S j) = Some q ->
            manhattan_pair p q = true)
         <-> manhattan_pair (midpoint p1) (position p2) = true))
  /\ (forall q0,
        nth_error ports2 0 = Some q0 ->
        Forall (fun s => strict_segment s = true) (combine path (tl path)) ->
        (forall s, nth_error (combine path (tl path))
                     (length (combine path (tl path)) - 1) = Some s ->
                   along_end_axis (orientation q0) s = true) ->
        (forall j p q, (1 <= j)%nat ->
           nth_error route j = Some p -> nth_error route (S j) = Some q ->
           manhattan_pair p q = true)
        /\ (forall p0 s0,
              nth_error ports1 0 = Some p0 ->
              gpa ports1 = Ok (orientation p0) ->
              (2 <= length (combine path (tl path)))%nat ->
              nth_error (combine path (tl path)) 0 = Some s0 ->
              leaves_forward (orientation p0) s0 = true ->
              forall j p q,
                nth_error route j = Some p -> nth_error route (S j) = Some q ->
                manhattan_pair p q = true)).
Proof.
  intros H Hpath Hroute. split.
  { intros Hone.
    destruct (kernel_stages _ _ _ _ _ _ H) as [path' ref' os' om' p0' q0 raw' Hpath' _ _ _ _ Hq0 _ _].
    apply index_ok in Hq0.
    destruct (@kernel_route gpa rfa ports1 ports2 waypoints separation routes path q0
                i route H Hpath Hq0 Hroute)
      as (p0 & p1 & ref & os & om & r0 & rest & Hp0 & Hp1 & Href & Hos & Hom & Hport & ->).
    destruct (port_route_corners _ _ _ _ _ _ Hport)
      as [[_ Hnil]|(o_start & p2 & _ & Hp2 & Hlen & Hlast & _)]; [discriminate|].
    rewrite Hone in Hlen, Hlast.
    destruct rest as [|e [|e' rest]]; try discriminate.
    cbn [nth_error] in Hlast. injection Hlast as ->.
    exists p1, p2. repeat split; auto.
    - intros Hall. apply (Hall 0%nat); reflexivity.
    - intros Hal j p q Hp Hq. destruct j as [|[|j]]; try discriminate.
      cbn in Hp, Hq. injection Hp as <-. injection Hq as <-. exact Hal. }
  intros q0 Hq0 Hstrict Hend.
  destruct (@kernel_route gpa rfa ports1 ports2 waypoints separation routes path q0
              i route H Hpath Hq0 Hroute)
    as (p0 & p1 & ref & os & om & r0 & rest & Hp0 & Hp1 & Href & Hos & Hom & Hport & ->).
  assert (Htail : forall j p q, (1 <= j)%nat ->
            nth_error (midpoint p1 :: rest) j = Some p ->
            nth_error (midpoint p1 :: rest) (S j) = Some q ->
            manhattan_pair p q = true).
  { intros j p q Hj Hp Hq. destruct j as [|j]; [lia|].
    eapply port_route_manhattan_tail with (j := S j);
      [exact Hport|exact Hstrict|exact Hend|lia|exact Hp|exact Hq]. }
  split; [exact Htail|].
  intros p0' s0 Hp0' Hgpa Hlen Hs0 Hfwd j p q Hp Hq.
  assert (p0' = p0) by congruence. subst p0'.
  destruct j as [|j]; [|apply (Htail (S j)); auto; lia].
  cbn [nth_error] in Hp, Hq. injection Hp as <-.
  pose proof (@first_segment_start path ref s0 Href Hs0) as Hfst.
  pose proof (@flipped_start_offset gpa ports1 ref (orientation p0) os i p1 Hgpa Hos Hp1)
    as Hoff.
  assert (Hq' : nth_error (r0 :: rest) 1 = Some q) by exact Hq.
  destruct (@port_route_second_point _ _ _ _ _ _ _ s0 _ q
              Hport Hstrict Hend Hlen Hs0 Hoff Hq')
    as [Hy Hx].
  unfold leaves_forward in Hfwd. apply orb_prop in Hfwd.
  destruct Hfwd as [Hf|Hf]; repeat (apply andb_prop in Hf; destruct Hf as [Hf ?]).
  - rewrite (angle_in_axes _ Hf) in Hy.
    apply pair_horizontal.
    rewrite Hy by (auto; apply negb_true_iff; assumption).
    rewrite Qsign_pos.
    2:{ match goal with E : Qltb _ _ = true |- _ => apply Qltb_lt in E end. lra. }
    unfold start_offset. rewrite Hf, Hfst. unfold y. ring.
  - assert (Hno : angle_in (orientation p0) [0; 180]%Z = false).
    { destruct (angle_in (orientation p0) [0; 180]%Z) eqn:E; [|reflexivity].
      apply angle_in_axes in E. congruence. }
    rewrite Hf in Hx.
    apply pair_vertical.
    rewrite Hx by (auto; apply negb_true_iff; assumption).
    rewrite Qsign_pos.
    2:{ match goal with E : Qltb _ _ = true |- _ => apply Qltb_lt in E end. lra. }
    unfold start_offset. rewrite Hno, Hfst. unfold x. ring.
Qed.

(** C6 as stated fails in three ways.  Two ports facing east, two ports
    facing west, one straight segment between the two reference ports: the
    second pair of ports is 10 apart at the start and 20 apart at the end;
    its route starts at the one port, ends at the other, and is neither
    horizontal nor vertical.  One port facing east routed along three
    segments to a port facing north that the last segment reaches
    horizontally: snapping moves the last corner in X only, and the pair
    before it is neither horizontal nor vertical.  Two ports facing west
    routed westwards: the second route is displaced to the far side of the
    reference port, and its first pair is neither horizontal nor
    vertical. *)
Lemma route_not_manhattan_counterexample :
  (generate [port_at 0 0 0; port_at 0 10 0] [port_at 50 0 180; port_at 50 20 180]
            [pt 0 0; pt 50 0] None
   = Ok [[pt 0 0; pt 50 0]; [pt 0 10; pt 50 20]]
   /\ manhattan_pair (pt 0 10) (pt 50 20) = false)
  /\ (generate [port_at 0 0 0] [port_at 100 50 90]
               [pt 0 0; pt 50 0; pt 50 50; pt 100 50] None
      = Ok [[pt 0 0; pt 50 0; pt 100 50; pt 100 50]]
      /\ manhattan_pair (pt 50 0) (pt 100 50) = false)
  /\ (generate [port_at 0 0 180; port_at 0 10 180]
               [port_at (-100) 50 0; port_at (-100) 60 0]
               [pt 0 0; pt (-50) 0; pt (-50) 50; pt (-100) 50] None
      = Ok [[pt 0 0; pt (-50) 0; pt (-50) 50; pt (-100) 50];
            [pt 0 10; pt (-60) (-10); pt (-60) 60; pt (-100) 60]]
      /\ manhattan_pair (pt 0 10) (pt (-60) (-10)) = false).
Proof.
  repeat split; reflexivity.
Qed.

(** ** The kernel returns on well-formed inputs *)

Lemma mapM_In {A B : Type} (f : A -> result B) (l : list A) (bs : list B) (b : B) :
  mapM f l = Ok bs -> In b bs -> exists a, In a l /\ f a = Ok b.
Proof.
  revert bs. induction l as [|a l IH]; cbn [mapM]; intros bs H Hb.
  - injection H as <-. destruct Hb.
  - inv_bind H. inv_bind H. injection H as <-. destruct Hb as [<-|Hb].
    + exists a. split; [left; reflexivity|assumption].
    + destruct (IH _ E0 Hb) as (a' & Ha' & Hf). exists a'. split; [right|]; assumption.
Qed.

Lemma enumerate_length {A : Type} (l : list A) : length (enumerate l) = length l.
Proof. unfold enumerate. rewrite length_combine, length_seq. lia. Qed.

Lemma mid_offsets_length (separation : option Q) (os om : list Q) :
  mid_offsets separation os = Ok om -> length om = length os.
Proof.
  unfold mid_offsets. destruct (supplied separation) as [sep|].
  - intros H. inv_bind H. destruct (Qeq_bool v 0).
    + apply mapM_length in H. rewrite enumerate_length in H. assumption.
    + inv_bind H. destruct (Qeq_bool v0 0); [|discriminate].
      inv_bind H. injection H as <-. apply mapM_length in E1.
      rewrite enumerate_length in E1. rewrite length_rev. assumption.
  - intros H. injection H as <-. reflexivity.
Qed.

Lemma flip_offsets_length (a : Z) (l : list Q) : length (flip_offsets a l) = length l.
Proof. rewrite flip_offsets_spec. apply length_map. Qed.

Lemma port_route_total (ways : list segment) (ports2 : list Port) (ea : Z)
    (os om : list Q) (i : nat) :
  Forall (fun s => manhattan_segment s = true) ways ->
  (forall j s s', (0 < j)%nat -> nth_error ways j = Some s ->
                  nth_error ways (j - 1) = Some s' -> one_h_one_v s s' = true) ->
  (i < length os)%nat -> (i < length om)%nat -> (i < length ports2)%nat ->
  exists route, port_route ways ports2 ea os om i = Ok route.
Proof.
  intros Hall Hpairs Hos Hom Hp2. rewrite port_route_closed.
  destruct (index_lt os Hos) as [o_start Eos]. rewrite Eos. cbn [bind].
  destruct (index_lt om Hom) as [o_mid Eom]. apply index_ok in Eom.
  destruct (@mapM_total _ _ (corner ways o_start om i) (seq 0 (length ways))) as [cs Hcs].
  { intros j Hj. apply in_seq in Hj.
    apply corner_total with (o_mid := o_mid); auto; [lia|].
    intros s s' Hj0. apply Hpairs. assumption. }
  rewrite Hcs. cbn [bind]. unfold finish.
  destruct (rev cs); [eauto|].
  destruct (index_lt ports2 Hp2) as [p2 Ep2]. rewrite Ep2. cbn [bind]. eauto.
Qed.

(** On two bundles of the same length [n >= 1], a normalized path of two
    points or more whose segments are Manhattan and alternate between
    horizontal and vertical, and mid-path offsets that exist, the kernel
    returns a list of routes. *)
Lemma kernel_succeeds (gpa : list Port -> result Z) (rfa : list point -> result (list point))
    (ports1 ports2 : list Port) (waypoints : list point) (separation : option Q)
    (path : list point) (ref : point) (a : Z) (om : list Q) :
  rfa waypoints = Ok path ->
  nth_error path 0 = Some ref ->
  (2 <= length path)%nat ->
  Forall (fun s => manhattan_segment s = true) (combine path (tl path)) ->
  (forall j s s', (0 < j)%nat -> nth_error (combine path (tl path)) j = Some s ->
                  nth_error (combine path (tl path)) (j - 1) = Some s' ->
                  one_h_one_v s s' = true) ->
  (1 <= length ports1)%nat ->
  length ports2 = length ports1 ->
  gpa ports1 = Ok a ->
  mid_offsets separation (map (start_offset a ref) ports1) = Ok om ->
  exists routes,
    _generate_manhattan_bundle_waypoints gpa rfa ports1 ports2 waypoints separation
    = Ok routes.
Proof.
  intros Hpath Href Hlen Hall Hpairs Hn Hsame Ha Hmid.
  unfold _generate_manhattan_bundle_waypoints.
  rewrite Hpath. cbn [bind]. apply index_ok in Href. rewrite Href. cbn [bind].
  rewrite (distances_spec _ _ ref Ha). cbn [bind]. rewrite Hmid. cbn [bind].
  destruct (@index_lt _ ports1 0%nat) as [p0 Hp0]; [lia|]. rewrite Hp0. cbn [bind].
  destruct (@index_lt _ ports2 0%nat) as [q0 Hq0]; [lia|]. rewrite Hq0. cbn [bind].
  pose proof (mid_offsets_length _ _ Hmid) as Hlom. rewrite length_map in Hlom.
  set (ways := combine path (tl path)) in *.
  set (os' := flip_offsets (orientation p0) (map (start_offset a ref) ports1)).
  set (om' := flip_offsets (orientation p0) om).
  destruct (@mapM_total _ _ (port_route ways ports2 (orientation q0) os' om')
              (seq 0 (length ports1))) as [raw Hraw].
  { intros i Hi. apply in_seq in Hi. apply port_route_total; auto.
    - unfold os'. rewrite flip_offsets_length, length_map. lia.
    - unfold om'. rewrite flip_offsets_length. lia.
    - lia. }
  rewrite Hraw. cbn [bind].
  apply mapM_total. intros [r p] Hin. cbn [fst snd].
  apply in_combine_l in Hin.
  destruct (mapM_In _ _ _ Hraw Hin) as (i & _ & Hport).
  destruct (port_route_corners _ _ _ _ _ _ Hport) as [[Hw _]|(_ & _ & _ & _ & Hl & _)].
  - exfalso. assert (Hlw : length ways = 0%nat) by (rewrite Hw; reflexivity).
    unfold ways in Hlw. rewrite length_combine in Hlw.
    destruct path as [|r0 [|r1 rest]]; cbn in *; lia.
  - destruct r; [discriminate|]. cbn. eauto.
Qed.

(** C1. Every route the kernel returns starts at the exact position of its
    source port and ends at the exact position of its destination port (the
    two points are copies of the port positions, so they agree within any
    tolerance), and has these two points at least.  On well-formed inputs
    the kernel does return. *)
Theorem route_endpoints (gpa : list Port -> result Z)
    (rfa : list point -> result (list point))
    (ports1 ports2 : list Port) (waypoints : list point) (separation : option Q) :
  (forall routes,
     _generate_manhattan_bundle_waypoints gpa rfa ports1 ports2 waypoints separation
     = Ok routes ->
     forall i p1, nth_error ports1 i = Some p1 ->
     exists p2 middle,
       nth_error ports2 i = Some p2
       /\ nth_error routes i = Some (midpoint p1 :: middle ++ [position p2]))
  /\ (forall path ref a om,
        rfa waypoints = Ok path ->
        nth_error path 0 = Some ref ->
        (2 <= length path)%nat ->
        Forall (fun s => manhattan_segment s = true) (combine path (tl path)) ->
        (forall j s s', (0 < j)%nat -> nth_error (combine path (tl path)) j = Some s ->
                        nth_error (combine path (tl path)) (j - 1) = Some s' ->
                        one_h_one_v s s' = true) ->
        (1 <= length ports1)%nat ->
        length ports2 = length ports1 ->
        gpa ports1 = Ok a ->
        mid_offsets separation (map (start_offset a ref) ports1) = Ok om ->
        exists routes,
          _generate_manhattan_bundle_waypoints gpa rfa ports1 ports2 waypoints separation
          = Ok routes).
Proof.
  split.
  - intros routes H i p1 Hp1. destruct (kernel_stages _ _ _ _ _ _ H).
    destruct (routes_shape _ _ _ _ _ _ _ Hraw Hroutes Hp1)
      as (o_i & cs & front & c & p2 & _ & _ & _ & Hp2 & _ & Hroute).
    destruct (snap_pair_last (orientation q0) c (position p2)) as [c' Hsnap].
    rewrite Hsnap in Hroute. exists p2.
    destruct front as [|f front]; cbn [tl app] in Hroute.
    + exists []. auto.
    + exists (front ++ [c']). rewrite <- app_assoc. auto.
  - intros path ref a om. apply kernel_succeeds.
Qed.

(** ** The theorems at work on the sample inputs *)

Lemma five_nonzero : ~ 5 == 0.
Proof. intros H. discriminate H. Qed.

Lemma route_endpoints_witness :
  exists p2 middle,
    nth_error sample_ports2 1 = Some p2
    /\ nth_error sample_routes 1 = Some (midpoint (port_at 0 10 0) :: middle ++ [position p2]).
Proof.
  apply (proj1 (@route_endpoints bundle_angle normalize_path sample_ports1 sample_ports2
                  sample_waypoints None) sample_routes); reflexivity.
Defined.

Lemma corner_is_intersection_witness :
  port_route sample_ways sample_ports2 180 [0; 10] [0; 10] 1
  = Ok [pt 0 10; pt 40 10; pt 40 70; pt 100 70]
  /\ exists sh sv,
       _is_horizontal sh = true /\ _is_vertical sv = true
       /\ nth_error [pt 0 10; pt 40 10; pt 40 70; pt 100 70] 1
          = Some (px (fst sv), py (fst sh)).
Proof.
  split; [reflexivity|].
  destruct (proj1 corner_is_intersection sample_ways sample_ports2 180%Z [0; 10] [0; 10]
              1%nat [pt 0 10; pt 40 10; pt 40 70; pt 100 70] eq_refl 1%nat)
    as (seg & prev_seg & o_start & o_mid & d_seg & tmp_seg & sh & sv & p2
        & _ & _ & _ & _ & _ & _ & _ & Hh & Hv & _ & _ & Hnth).
  - cbn. lia.
  - exists sh, sv. repeat split; [exact Hh|exact Hv|exact Hnth].
Defined.

Lemma mid_offsets_with_separation_witness :
  mid_offsets (Some 5) [0; 3; 7]
  = Ok (map (fun k => Qsign 3 * 5 * inject_Z (Z.of_nat k)) (seq 0 3)).
Proof.
  apply (proj1 (proj1 mid_offsets_with_separation 5 [0; 3; 7] 0 3 3 7
                  five_nonzero (le_S _ _ (le_n 2)) eq_refl eq_refl eq_refl eq_refl)).
  reflexivity.
Defined.

Lemma both_ends_zero_first_branch_witness :
  mid_offsets (Some 5) [0; 3; 0]
  = Ok (map (fun k => Qsign 3 * 5 * inject_Z (Z.of_nat k)) (seq 0 3)).
Proof.
  apply (proj1 (@both_ends_zero_first_branch 5 [0; 3; 0] 0 3 0
                  five_nonzero (le_S _ _ (le_n 2)) eq_refl eq_refl eq_refl
                  (Qeq_refl 0) (Qeq_refl 0))).
Defined.

Lemma displace_group1_handedness_witness :
  _displace_segment_copy_group1 (pt 0 0, pt 50 0) 10
  = Ok (translate (pt 0 0, pt 50 0) (0, 1 * Qsign (50 - 0) * 10)).
Proof.
  apply (proj1 (displace_group1_handedness (pt 0 0, pt 50 0) 10)); reflexivity.
Defined.

Lemma offsets_follow_orientation_witness :
  get_ports_x_or_y_distances bundle_angle sample_ports1 (pt 0 0)
  = Ok (map (fun p => if angle_in 0 [0; 180]%Z then y p - py (pt 0 0) else x p - px (pt 0 0))
            sample_ports1).
Proof.
  apply (proj1 offsets_follow_orientation bundle_angle sample_ports1 (pt 0 0) 0%Z).
  reflexivity.
Defined.

Lemma single_port_separation_fails_witness :
  generate [port_at 0 0 0] [port_at 50 0 180] [pt 0 0; pt 50 0] (Some 5)
  = Error IndexError.
Proof.
  apply (proj1 (proj2 (@single_port_separation_fails bundle_angle normalize_path
                         (port_at 0 0 0) [port_at 50 0 180] [pt 0 0; pt 50 0] 5
                         five_nonzero)
                  [pt 0 0; pt 50 0] (pt 0 0) 0%Z eq_refl eq_refl eq_refl)).
  reflexivity.
Defined.

Lemma routes_manhattan_witness :
  (generate sample_ports1 sample_ports2 sample_waypoints None = Ok sample_routes
   /\ manhattan_pair (pt 0 10) (pt 40 10) = true
   /\ manhattan_pair (pt 40 10) (pt 40 70) = true)
  /\ (generate sample_ports1 [port_at 50 0 180; port_at 50 10 180] [pt 0 0; pt 50 0] None
      = Ok [[pt 0 0; pt 50 0]; [pt 0 10; pt 50 10]]
      /\ exists p1 p2,
           nth_error sample_ports1 1 = Some p1
           /\ nth_error [port_at 50 0 180; port_at 50 10 180] 1 = Some p2
           /\ [pt 0 10; pt 50 10] = [midpoint p1; position p2]
           /\ ((forall j p q,
                  nth_error [pt 0 10; pt 50 10] j = Some p ->
                  nth_error [pt 0 10; pt 50 10] (S j) = Some q ->
                  manhattan_pair p q = true)
               <-> manhattan_pair (midpoint p1) (position p2) = true)).
Proof.
  assert (Hstrict : Forall (fun s => strict_segment s = true)
                      (combine sample_waypoints (tl sample_waypoints)))
    by (repeat constructor).
  assert (Hend : forall s,
             nth_error (combine sample_waypoints (tl sample_waypoints))
               (length (combine sample_waypoints (tl sample_waypoints)) - 1) = Some s ->
             along_end_axis (orientation (port_at 100 50 180)) s = true).
  { intros s Hs. cbn in Hs. injection Hs as <-. reflexivity. }
  split.
  - destruct (proj2 (@routes_manhattan bundle_angle normalize_path sample_ports1
                       sample_ports2 sample_waypoints None sample_routes sample_waypoints
                       1%nat [pt 0 10; pt 40 10; pt 40 70; pt 100 70]
                       eq_refl eq_refl eq_refl)
                    (port_at 100 50 180) eq_refl Hstrict Hend) as [Htail Hfirst].
    split; [reflexivity|]. split.
    + apply (Hfirst (port_at 0 0 0) (pt 0 0, pt 50 0) eq_refl eq_refl
               (le_S _ _ (le_n 2)) eq_refl eq_refl 0%nat); reflexivity.
    + apply (Htail 1%nat); [apply le_n|reflexivity|reflexivity].
  - split; [reflexivity|].
    apply (proj1 (@routes_manhattan bundle_angle normalize_path sample_ports1
                    [port_at 50 0 180; port_at 50 10 180] [pt 0 0; pt 50 0] None
                    [[pt 0 0; pt 50 0]; [pt 0 10; pt 50 10]] [pt 0 0; pt 50 0]
                    1%nat [pt 0 10; pt 50 10] eq_refl eq_refl eq_refl)).
    reflexivity.
Defined.

Lemma ports_normalized_in_place_witness :
  obj_angle (ports fractional_world 2%nat) = -359 # 2
  /\ obj_angle (ports (snd (sample_bundle fractional_world [] true None)) 2%nat)
     = inject_Z (int (obj_angle (ports fractional_world 2%nat)) mod 360)
  /\ inject_Z (int (obj_angle (ports fractional_world 2%nat)) mod 360) = 181.
Proof.
  split; [reflexivity|]. split; [|reflexivity].
  apply (proj1 (proj2 (proj2
           (@ports_normalized_in_place bundle_angle normalize_path unit unit unit
              (list point) (Ok tt) (Ok tt) (fun _ _ => Ok None) (fun pts _ _ => Ok pts)
              fractional_world [] true None 2%nat)))).
  - reflexivity.
  - right. right. left. reflexivity.
Defined.


(** * Further properties of the module *)

(** ** Snapping a route to the end point *)

Lemma split_last2 {A : Type} (l : list A) :
  (2 <= length l)%nat -> exists front a b, l = front ++ [a; b].
Proof.
  intros H. destruct (rev l) as [|b [|a r]] eqn:Er.
  - apply (f_equal (@length A)) in Er. rewrite length_rev in Er. cbn in Er. lia.
  - apply (f_equal (@length A)) in Er. rewrite length_rev in Er. cbn in Er. lia.
  - exists (rev r), a, b. rewrite <- (rev_involutive l), Er. cbn [rev].
    rewrite <- app_assoc. reflexivity.
Qed.

Lemma app2_inj {A : Type} (l l' : list A) (a b a' b' : A) :
  l ++ [a; b] = l' ++ [a'; b'] -> l = l' /\ a = a' /\ b = b'.
Proof.
  intros H.
  change (l ++ [a; b]) with (l ++ [a] ++ [b]) in H.
  change (l' ++ [a'; b']) with (l' ++ [a'] ++ [b']) in H.
  rewrite !app_assoc in H. apply app_inj_tail in H. destruct H as [H ->].
  apply app_inj_tail in H. destruct H as [-> ->]. auto.
Qed.

Lemma snap_x_short (route : list point) (v : Q) :
  (length route < 2)%nat -> snap_route_to_end_point_x route v = Error UnpackError.
Proof.
  destruct route as [|a [|b r]]; cbn [length]; intros H; try reflexivity. lia.
Qed.

Lemma snap_y_short (route : list point) (v : Q) :
  (length route < 2)%nat -> snap_route_to_end_point_y route v = Error UnpackError.
Proof.
  destruct route as [|a [|b r]]; cbn [length]; intros H; try reflexivity. lia.
Qed.

(** X1. Snapping needs a route of two points: on a shorter one both
    functions fail to unpack.  On [front ++ [c; e]] they keep [front],
    keep the other coordinate of [c] and of [e], and give both the
    coordinate asked for, so that the route keeps its length. *)
Theorem snap_last_two (route : list point) (v : Q) :
  ((length route < 2)%nat ->
   snap_route_to_end_point_x route v = Error UnpackError
   /\ snap_route_to_end_point_y route v = Error UnpackError)
  /\ ((2 <= length route)%nat ->
      exists front c e,
        route = front ++ [c; e]
        /\ snap_route_to_end_point_x route v = Ok (front ++ [(v, py c); (v, py e)])
        /\ snap_route_to_end_point_y route v = Ok (front ++ [(px c, v); (px e, v)])
        /\ length (front ++ [(v, py c); (v, py e)]) = length route
        /\ length (front ++ [(px c, v); (px e, v)]) = length route).
Proof.
  split.
  - intros H. split; [apply snap_x_short|apply snap_y_short]; assumption.
  - intros H. destruct (split_last2 route H) as (front & c & e & ->).
    exists front, c, e. rewrite snap_x_app2, snap_y_app2, !length_app. auto.
Qed.

(** X2. Snapping again overrides the coordinate and nothing else: two snaps
    in X are the second one alone (so snapping is idempotent), and a snap in
    X and a snap in Y commute, leaving the last two points on the point
    [(vx, vy)]. *)
Theorem snap_compose (route : list point) (v v' : Q) :
  (r <- snap_route_to_end_point_x route v ;; snap_route_to_end_point_x r v')
  = snap_route_to_end_point_x route v'
  /\ (r <- snap_route_to_end_point_y route v ;; snap_route_to_end_point_y r v')
     = snap_route_to_end_point_y route v'
  /\ (r <- snap_route_to_end_point_x route v ;; snap_route_to_end_point_y r v')
     = (r <- snap_route_to_end_point_y route v' ;; snap_route_to_end_point_x r v)
  /\ (forall front c e, route = front ++ [c; e] ->
      (r <- snap_route_to_end_point_x route v ;; snap_route_to_end_point_y r v')
      = Ok (front ++ [(v, v'); (v, v')])).
Proof.
  destruct (Nat.lt_ge_cases (length route) 2) as [Hs|Hl].
  - rewrite !(snap_x_short _ _ Hs), !(snap_y_short _ _ Hs). cbn [bind].
    repeat split. intros front c e ->. rewrite length_app in Hs. cbn in Hs. lia.
  - destruct (split_last2 route Hl) as (front & c & e & ->).
    rewrite !snap_x_app2, !snap_y_app2. cbn [bind].
    rewrite !snap_x_app2, !snap_y_app2. cbn [px py fst snd].
    repeat split. intros front' c' e' H.
    apply app2_inj in H. destruct H as [-> _]. reflexivity.
Qed.

(** ** The table of sort keys *)

Lemma cardinal_cases (a : Z) :
  cardinal a = true <-> (a = 0 \/ a = 90 \/ a = 180 \/ a = 270)%Z.
Proof.
  unfold cardinal, angle_in. cbn [existsb]. rewrite !orb_true_iff, !Z.eqb_eq.
  intuition discriminate.
Qed.

Lemma not_cardinal (a : Z) :
  cardinal a = false ->
  (0 =? a)%Z = false /\ (90 =? a)%Z = false /\ (180 =? a)%Z = false /\ (270 =? a)%Z = false.
Proof.
  intros H. repeat split; apply Z.eqb_neq; intros <-; discriminate H.
Qed.

Lemma sort_keys_total_or_missing (a b : Z) :
  cardinal a && cardinal b = false -> lookup_sorttypes (a, b) = Error KeyError.
Proof.
  intros H. unfold lookup_sorttypes. cbn [find angles_to_sorttypes fst snd].
  apply andb_false_iff in H. destruct H as [H|H];
    destruct (not_cardinal _ H) as (H0 & H90 & H180 & H270);
    rewrite ?H0, ?H90, ?H180, ?H270, ?andb_false_r; reflexivity.
Qed.

(** X3. The table of sort keys answers exactly the sixteen pairs of
    cardinal orientations; any other pair is a missing key.  The key of the
    first bundle is ascending Y when it faces 0 or 180 and ascending X when
    it faces 90 or 270, whatever the second bundle faces. *)
Theorem sort_keys_domain (a b : Z) :
  (cardinal a && cardinal b = true ->
   exists k2,
     lookup_sorttypes (a, b)
     = Ok (if angle_in a [0; 180]%Z then SortY else SortX, k2))
  /\ (cardinal a && cardinal b = false -> lookup_sorttypes (a, b) = Error KeyError).
Proof.
  split; intros H.
  - apply andb_prop in H. destruct H as [Ha Hb].
    apply cardinal_cases in Ha, Hb.
    destruct Ha as [ -> | [ -> | [ -> | -> ] ] ], Hb as [ -> | [ -> | [ -> | -> ] ] ];
      eexists; reflexivity.
  - apply sort_keys_total_or_missing. assumption.
Qed.

(** ** Sorting a bundle *)

Lemma insert_by_perm (key : addr -> Q) (a : addr) (l : list addr) :
  Permutation (insert_by key a l) (a :: l).
Proof.
  induction l as [|b l IH]; cbn [insert_by]; [apply Permutation_refl|].
  destruct (Qle_bool (key a) (key b)); [apply Permutation_refl|].
  eapply perm_trans; [apply perm_skip; exact IH|].
  apply perm_swap.
Qed.

Lemma sort_by_perm (key : addr -> Q) (l : list addr) :
  Permutation (sort_by key l) l.
Proof.
  induction l as [|a l IH]; cbn; [constructor|].
  eapply perm_trans; [apply insert_by_perm|].
  apply perm_skip. exact IH.
Qed.

Lemma insert_by_ascending (key : addr -> Q) (a : addr) (l : list addr) :
  ascending key l -> ascending key (insert_by key a l).
Proof.
  induction l as [|b l IH]; intros Hl; cbn [insert_by].
  - cbn. auto.
  - destruct (Qle_bool (key a) (key b)) eqn:E.
    + apply Qle_bool_iff in E. cbn [ascending]. split; [assumption|exact Hl].
    + assert (Hba : key b <= key a).
      { apply Qlt_le_weak. apply Qnot_le_lt. intros Hle.
        apply Qle_bool_iff in Hle. congruence. }
      cbn [ascending] in Hl. destruct Hl as [Hhd Htl].
      specialize (IH Htl). cbn [ascending]. split; [|exact IH].
      destruct l as [|c l]; cbn [insert_by]; [exact Hba|].
      destruct (Qle_bool (key a) (key c)); assumption.
Qed.

Lemma sort_by_ascending (key : addr -> Q) (l : list addr) :
  ascending key (sort_by key l).
Proof.
  induction l as [|a l IH]; [exact I|].
  cbn [sort_by fold_right]. apply insert_by_ascending. exact IH.
Qed.

Lemma sort_by_sorted (key : addr -> Q) (l : list addr) :
  ascending key l -> sort_by key l = l.
Proof.
  induction l as [|a l IH]; intros Hl; [reflexivity|].
  cbn [sort_by fold_right]. fold (sort_by key l).
  cbn [ascending] in Hl. destruct Hl as [Hhd Htl]. rewrite (IH Htl).
  destruct l as [|b l]; [reflexivity|]. cbn [insert_by].
  apply Qle_bool_iff in Hhd. rewrite Hhd. reflexivity.
Qed.

(** ** Outcomes of the entry point *)

Section EntryPointOutcomes.

Variable get_list_ports_angle : list Port -> result Z.
Variable remove_flat_angles : list point -> result (list point).
Variables CrossSection Bend Taper Route : Type.
Variable cross_section : result CrossSection.
Variable bend_factory : result Bend.
Variable taper_of : CrossSection -> Port -> result (option Taper).
Variable round_corners : list point -> Bend -> option Taper -> result Route.

Local Notation "'entry'" :=
  (get_bundle_from_waypoints get_list_ports_angle remove_flat_angles
     cross_section bend_factory taper_of round_corners).

Lemma entry_bundles (w : world) (waypoints : list point) (sort_ports : bool)
    (separation : option Q) :
  Permutation (bundle1 (snd (entry w waypoints sort_ports separation))) (bundle1 w)
  /\ Permutation (bundle2 (snd (entry w waypoints sort_ports separation))) (bundle2 w).
Proof.
  unfold get_bundle_from_waypoints.
  destruct (negb _); [split; apply Permutation_refl|].
  destruct (index (bundle1 w) 0); [|split; apply Permutation_refl].
  destruct (index (bundle2 w) 0); [|split; apply Permutation_refl].
  destruct (lookup_sorttypes _) as [[sp_st ep_st]|e]; [|split; apply Permutation_refl].
  cbn [snd bundle1 bundle2].
  destruct sort_ports; split; try apply Permutation_refl; apply sort_by_perm.
Qed.

Lemma normalized_orientation (w : world) (a : addr) :
  In a (bundle1 w ++ bundle2 w) ->
  orientation
    (port_of (normalize_angles (bundle2 w) (normalize_angles (bundle1 w) (ports w)) a))
  = (int (obj_angle (ports w a)) mod 360)%Z.
Proof.
  intros H. destruct (normalize_both (bundle1 w) (bundle2 w) (ports w) a)
    as (_ & _ & Hin & _).
  cbn [port_of orientation]. rewrite (Hin H). apply int_inject_Z.
Qed.

(** X4. Failures of the entry point before any routing.  Two empty bundles
    pass the length check and fail on [ports1[0]] with an index error.  When
    the angles of the two first ports, once made integers with [int] and
    taken modulo 360, are not both cardinal, the call fails with a key
    error; by then the angles of all ports have been normalized in place,
    and the two lists are not sorted. *)
Theorem entry_failures (w : world) (waypoints : list point) (sort_ports : bool)
    (separation : option Q) :
  (bundle1 w = [] -> bundle2 w = [] ->
   entry w waypoints sort_ports separation = (Error IndexError, w))
  /\ (forall a1 a2,
        length (bundle2 w) = length (bundle1 w) ->
        nth_error (bundle1 w) 0 = Some a1 ->
        nth_error (bundle2 w) 0 = Some a2 ->
        cardinal (int (obj_angle (ports w a1)) mod 360)
        && cardinal (int (obj_angle (ports w a2)) mod 360) = false ->
        entry w waypoints sort_ports separation
        = (Error KeyError,
           mkWorld (normalize_angles (bundle2 w) (normalize_angles (bundle1 w) (ports w)))
                   (bundle1 w) (bundle2 w))).
Proof.
  split.
  - intros H1 H2. unfold get_bundle_from_waypoints. rewrite H1, H2. cbn.
    destruct w as [h b1 b2]. cbn in *. subst. reflexivity.
  - intros a1 a2 Hlen Ha1 Ha2 Hcard. unfold get_bundle_from_waypoints.
    apply Nat.eqb_eq in Hlen. rewrite Hlen. cbn [negb].
    pose proof Ha1 as Hi1. pose proof Ha2 as Hi2.
    apply index_ok in Hi1, Hi2. rewrite Hi1, Hi2.
    rewrite !normalized_orientation
      by (apply in_or_app; (left + right); eapply nth_error_In; eassumption).
    rewrite (sort_keys_total_or_missing _ _ Hcard). reflexivity.
Qed.

(** X5. The entry point never adds, drops or duplicates a port of the
    caller's lists, whatever its outcome.  Without [sort_ports] the lists
    keep their order.  With [sort_ports], once the sort keys are found, each
    list ends with the keys of its ports never decreasing, the keys being
    read from the ports after normalization, and a list that was in that
    order already keeps its order (ports with equal keys are not swapped). *)
Theorem entry_sorts_bundles (w : world) (waypoints : list point) (separation : option Q) :
  (forall sort_ports,
     Permutation (bundle1 (snd (entry w waypoints sort_ports separation))) (bundle1 w)
     /\ Permutation (bundle2 (snd (entry w waypoints sort_ports separation))) (bundle2 w))
  /\ bundle1 (snd (entry w waypoints false separation)) = bundle1 w
  /\ bundle2 (snd (entry w waypoints false separation)) = bundle2 w
  /\ (forall a1 a2 k1 k2,
        length (bundle2 w) = length (bundle1 w) ->
        nth_error (bundle1 w) 0 = Some a1 ->
        nth_error (bundle2 w) 0 = Some a2 ->
        lookup_sorttypes ((int (obj_angle (ports w a1)) mod 360)%Z,
                          (int (obj_angle (ports w a2)) mod 360)%Z) = Ok (k1, k2) ->
        let w' := snd (entry w waypoints true separation) in
        ascending (fun a => dict_sorts k1 (port_of (ports w' a))) (bundle1 w')
        /\ ascending (fun a => dict_sorts k2 (port_of (ports w' a))) (bundle2 w')
        /\ (ascending (fun a => dict_sorts k1 (port_of (ports w' a))) (bundle1 w) ->
            bundle1 w' = bundle1 w)
        /\ (ascending (fun a => dict_sorts k2 (port_of (ports w' a))) (bundle2 w) ->
            bundle2 w' = bundle2 w)).
Proof.
  split; [intros sort_ports; apply entry_bundles|].
  split; [|split].
  - unfold get_bundle_from_waypoints.
    destruct (negb _); [reflexivity|].
    destruct (index (bundle1 w) 0); [|reflexivity].
    destruct (index (bundle2 w) 0); [|reflexivity].
    destruct (lookup_sorttypes _) as [[sp_st ep_st]|e]; reflexivity.
  - unfold get_bundle_from_waypoints.
    destruct (negb _); [reflexivity|].
    destruct (index (bundle1 w) 0); [|reflexivity].
    destruct (index (bundle2 w) 0); [|reflexivity].
    destruct (lookup_sorttypes _) as [[sp_st ep_st]|e]; reflexivity.
  - intros a1 a2 k1 k2 Hlen Ha1 Ha2 Hkeys. unfold get_bundle_from_waypoints.
    apply Nat.eqb_eq in Hlen. rewrite Hlen. cbn [negb].
    pose proof Ha1 as Hi1. pose proof Ha2 as Hi2.
    apply index_ok in Hi1, Hi2. rewrite Hi1, Hi2.
    rewrite !normalized_orientation
      by (apply in_or_app; (left + right); eapply nth_error_In; eassumption).
    rewrite Hkeys. cbn [snd ports bundle1 bundle2].
    repeat split; try apply sort_by_ascending; apply sort_by_sorted.
Qed.

(** X6. Normalizing the angles is idempotent across calls: after one call,
    a second call on the same lists, with any waypoints and options, leaves
    every port object exactly as the first call left it. *)
Theorem second_call_keeps_ports (w : world) (waypoints waypoints' : list point)
    (sort_ports sort_ports' : bool) (separation separation' : option Q) (a : addr) :
  let w' := snd (entry w waypoints sort_ports separation) in
  ports (snd (entry w' waypoints' sort_ports' separation')) a = ports w' a.
Proof.
  cbn zeta.
  set (w' := snd (entry w waypoints sort_ports separation)).
  destruct (entry_store get_list_ports_angle remove_flat_angles cross_section bend_factory
              taper_of round_corners w' waypoints' sort_ports' separation')
    as [[_ Hw]|[Heq' Hw]]; rewrite Hw; [reflexivity|].
  destruct (normalize_both (bundle1 w') (bundle2 w') (ports w') a)
    as (_ & _ & _ & Hout & Hsmall).
  destruct (in_dec Nat.eq_dec a (bundle1 w' ++ bundle2 w')) as [Hin|Hnin]; [|auto].
  destruct (entry_bundles w waypoints sort_ports separation) as [Hp1 Hp2].
  fold w' in Hp1, Hp2.
  assert (Hin' : In a (bundle1 w ++ bundle2 w)).
  { apply in_app_or in Hin. apply in_or_app. destruct Hin as [Hin|Hin].
    - left. eapply Permutation_in; eassumption.
    - right. eapply Permutation_in; eassumption. }
  destruct (entry_store get_list_ports_angle remove_flat_angles cross_section bend_factory
              taper_of round_corners w waypoints sort_ports separation)
    as [[Hne Hw0]|[Heq Hw0]]; fold w' in Hw0.
  - exfalso. rewrite Hw0 in Heq'. contradiction.
  - destruct (normalize_both (bundle1 w) (bundle2 w) (ports w) a)
      as (_ & _ & Hnorm & _).
    apply (Hsmall (int (obj_angle (ports w a)) mod 360)%Z).
    + rewrite Hw0. auto.
    + apply Z.mod_pos_bound. reflexivity.
Qed.

End EntryPointOutcomes.

(** ** Displacement of a segment walked backwards *)

Lemma Qsign_compat (a b : Q) : a == b -> Qsign a = Qsign b.
Proof.
  intros H. unfold Qsign. f_equal. destruct a as [n d], b as [n' d'].
  unfold Qeq in H. cbn in *.
  destruct (Z.sgn_spec n) as [[Hn ->]|[[Hn ->]|[Hn ->]]];
    destruct (Z.sgn_spec n') as [[Hn' ->]|[[Hn' ->]|[Hn' ->]]]; try reflexivity; nia.
Qed.

Lemma Qsign_opp (a : Q) : Qsign (- a) = - Qsign a.
Proof.
  unfold Qsign. destruct a as [n d]. cbn. rewrite Z.sgn_opp. reflexivity.
Qed.

Lemma reversed_horizontal (s : segment) : _is_horizontal (reversed s) = _is_horizontal s.
Proof.
  destruct s as [[x0 y0] [x1 y1]]. unfold _is_horizontal, reversed, px, py. cbn [fst snd].
  apply Qltb_compat. setoid_replace (y1 - y0) with (- (y0 - y1)) by ring. apply Qabs_opp.
Qed.

Lemma reversed_vertical (s : segment) : _is_vertical (reversed s) = _is_vertical s.
Proof.
  destruct s as [[x0 y0] [x1 y1]]. unfold _is_vertical, reversed, px, py. cbn [fst snd].
  apply Qltb_compat. setoid_replace (x1 - x0) with (- (x0 - x1)) by ring. apply Qabs_opp.
Qed.

Lemma reversed_sign (s : segment) (sg : Q) :
  _segment_sign s = Some sg -> _segment_sign (reversed s) = Some (- sg).
Proof.
  unfold _segment_sign.
  pose proof (reversed_horizontal s) as Hh. pose proof (reversed_vertical s) as Hv.
  destruct s as [[x0 y0] [x1 y1]]. unfold reversed in *. cbn [fst snd] in *.
  rewrite Hh, Hv. clear Hh Hv. unfold px, py. cbn [fst snd].
  destruct (_is_vertical _); cbv iota.
  - intros H. injection H as <-. rewrite <- Qsign_opp. f_equal.
    apply Qsign_compat. ring.
  - destruct (_is_horizontal _); cbv iota; [|discriminate].
    intros H. injection H as <-. rewrite <- Qsign_opp. f_equal.
    apply Qsign_compat. ring.
Qed.

(** X8. The offset is a side of the direction of travel: walking the
    segment backwards with the opposite offset gives the same displaced
    segment, walked backwards. *)
Theorem displacement_of_reversed (s d : segment) (a : Q) :
  _make_segment s a = Ok d ->
  exists d', _make_segment (reversed s) (- a) = Ok d' /\ segment_eq d' (reversed d).
Proof.
  unfold _make_segment, _displace_segment_copy_group1, _displace_segment_copy.
  rewrite reversed_horizontal, reversed_vertical.
  destruct (_segment_sign s) as [sg|] eqn:Es.
  - rewrite (reversed_sign _ Es).
    destruct (_is_horizontal s); [|destruct (_is_vertical s); [|discriminate]];
      intros H; injection H as <-; eexists; (split; [reflexivity|]);
      destruct s as [[x0 y0] [x1 y1]];
      unfold segment_eq, point_eq, translate, reversed, px, py; cbn [fst snd];
      (split; split; ring).
  - unfold _segment_sign in Es. destruct s as [p0 p1].
    destruct (_is_vertical (p0, p1)); [discriminate|].
    destruct (_is_horizontal (p0, p1)); discriminate.
Qed.

(** X9. The order of the two arguments of [_intersection] does not matter
    as soon as one of them is horizontal or vertical and not both. *)
Theorem intersection_symmetric (s1 s2 : segment) :
  strict_segment s1 = true -> _intersection s1 s2 = _intersection s2 s1.
Proof.
  intros H. unfold _intersection.
  destruct (strict_cases _ H) as [[Hh Hv]|[Hh Hv]]; rewrite Hh, Hv;
    destruct (_is_horizontal s2), (_is_vertical s2); reflexivity.
Qed.

(** ** Start offsets *)

(** X10. [get_ports_x_or_y_distances] returns one offset per port, the empty
    list for no port (without looking for an orientation), and the offset
    zero for a port that sits on the reference point. *)
Theorem distances_facts (gpa : list Port -> result Z) :
  (forall ref, get_ports_x_or_y_distances gpa [] ref = Ok [])
  /\ (forall ps ref os,
        get_ports_x_or_y_distances gpa ps ref = Ok os -> length os = length ps)
  /\ (forall ps ref os i p,
        get_ports_x_or_y_distances gpa ps ref = Ok os ->
        nth_error ps i = Some p -> midpoint p = ref ->
        exists o, nth_error os i = Some o /\ o == 0).
Proof.
  split; [reflexivity|]. split; [intros ps ref os; apply distances_length|].
  assert (Hform : forall ps ref os,
            get_ports_x_or_y_distances gpa ps ref = Ok os ->
            exists a, os = map (start_offset a ref) ps).
  { intros ps ref os H. destruct (gpa ps) as [a|e] eqn:Ea.
    - rewrite (distances_spec _ _ ref Ea) in H. injection H as <-. eauto.
    - destruct ps as [|p ps]; [injection H as <-; exists 0%Z; reflexivity|].
      unfold get_ports_x_or_y_distances in H. rewrite Ea in H. discriminate. }
  intros ps ref os i p H Hp Href. destruct (Hform _ _ _ H) as [a ->].
  exists (start_offset a ref p). split; [rewrite nth_error_map, Hp; reflexivity|].
  unfold start_offset, x, y. rewrite Href.
  destruct (angle_in a [0; 180]%Z); ring.
Qed.

(** ** The shape of the routes *)

Lemma ways_length (path : list point) :
  @length segment (combine path (tl path)) = (length path - 1)%nat.
Proof.
  change (@length segment) with (@length (point * point)). rewrite length_combine. destruct path as [|p path]; cbn [length tl]; lia.
Qed.

Lemma port_route_no_segment (ports2 : list Port) (ea : Z) (os om : list Q) (i : nat)
    (raw : list point) :
  port_route [] ports2 ea os om i = Ok raw -> raw = [].
Proof.
  rewrite port_route_closed. destruct (index os i); cbn; [|discriminate].
  intros H. injection H as <-. reflexivity.
Qed.

(** X11. Every route the kernel returns has exactly as many points as the
    normalized waypoint path, which has two points at least: a path that
    the normalizer reduces to fewer than two points never gives routes. *)
Theorem routes_have_path_length (gpa : list Port -> result Z)
    (rfa : list point -> result (list point)) (ports1 ports2 : list Port)
    (waypoints : list point) (separation : option Q) (routes : list (list point))
    (path : list point) :
  _generate_manhattan_bundle_waypoints gpa rfa ports1 ports2 waypoints separation
  = Ok routes ->
  rfa waypoints = Ok path ->
  (2 <= length path)%nat
  /\ routes <> []
  /\ Forall (fun route => length route = length path) routes.
Proof.
  intros H Hpath.
  pose proof (kernel_length _ _ _ _ _ _ H) as Hlen.
  destruct (kernel_stages _ _ _ _ _ _ H) as [path' ref os om p0 q0 raw Hpath' _ _ _ Hp0 Hq0 _ _].
  assert (path' = path) by congruence. subst path'. apply index_ok in Hp0, Hq0.
  assert (Hall : forall route, In route routes ->
            (2 <= length path)%nat /\ length route = length path).
  { intros route Hin. apply In_nth_error in Hin. destruct Hin as [i Hroute].
    destruct (@kernel_route gpa rfa ports1 ports2 waypoints separation routes path q0
                i route H Hpath Hq0 Hroute)
      as (p0' & p1 & ref' & os' & om' & r0 & rest & _ & _ & _ & _ & _ & Hport & ->).
    destruct (port_route_corners _ _ _ _ _ _ Hport) as [[_ Hnil]|(_ & _ & _ & _ & Hl & _)];
      [discriminate|].
    pose proof (ways_length path) as Hw.
    assert (Hpos : (0 < @length segment (combine path (tl path)))%nat).
    { destruct (combine path (tl path)) as [|s ways];
        [apply port_route_no_segment in Hport; discriminate|cbn [length]; lia]. }
    cbn [length] in Hl |- *. lia. }
  assert (Hne : routes <> []).
  { destruct routes; [|discriminate]. destruct ports1; discriminate. }
  repeat split; auto.
  - destruct routes as [|r routes]; [contradiction|]. apply (Hall r). left. reflexivity.
  - apply Forall_forall. intros route Hin. apply Hall. assumption.
Qed.

Lemma mapM_same {A B : Type} (f g : A -> result B) (l : list A) :
  (forall a, In a l -> f a = g a) -> mapM f l = mapM g l.
Proof.
  induction l as [|a l IH]; cbn [mapM]; intros H; [reflexivity|].
  rewrite H by (left; reflexivity). rewrite IH; [reflexivity|].
  intros b Hb. apply H. right. assumption.
Qed.

Lemma index_firstn {A : Type} (l : list A) (n i : nat) :
  (i < n)%nat -> index (firstn n l) i = index l i.
Proof. intros H. unfold index. rewrite nth_error_firstn. apply Nat.ltb_lt in H. rewrite H. reflexivity. Qed.

(** X12. The kernel does not compare the lengths of the two bundles.  It
    never returns when the second bundle is the shorter one, and it ignores
    the ports of the second bundle beyond the length of the first: cutting
    the second bundle to that length changes nothing. *)
Theorem kernel_second_bundle (gpa : list Port -> result Z)
    (rfa : list point -> result (list point)) (ports1 ports2 : list Port)
    (waypoints : list point) (separation : option Q) :
  (forall routes,
     _generate_manhattan_bundle_waypoints gpa rfa ports1 ports2 waypoints separation
     = Ok routes ->
     (length ports1 <= length ports2)%nat)
  /\ _generate_manhattan_bundle_waypoints gpa rfa ports1 (firstn (length ports1) ports2)
       waypoints separation
     = _generate_manhattan_bundle_waypoints gpa rfa ports1 ports2 waypoints separation.
Proof.
  split.
  - intros routes H. destruct (kernel_stages _ _ _ _ _ _ H).
    destruct (Nat.le_gt_cases (length ports1) (length ports2)) as [Hle|Hgt]; [assumption|].
    exfalso.
    destruct (nth_error ports1 (length ports2)) as [p1|] eqn:Hp1;
      [|apply nth_error_None in Hp1; lia].
    destruct (routes_shape _ _ _ _ _ _ _ Hraw Hroutes Hp1)
      as (_ & _ & _ & _ & p2 & _ & _ & _ & Hp2 & _).
    assert (length ports2 < length ports2)%nat by (apply nth_error_Some; congruence). lia.
  - unfold _generate_manhattan_bundle_waypoints.
    destruct (rfa waypoints) as [path|e]; cbn [bind]; [|reflexivity].
    destruct (index path 0); cbn [bind]; [|reflexivity].
    destruct (get_ports_x_or_y_distances gpa ports1 a); cbn [bind]; [|reflexivity].
    destruct (mid_offsets separation a0); cbn [bind]; [|reflexivity].
    destruct (index ports1 0) as [p0|e] eqn:Hp0; cbn [bind]; [|reflexivity].
    assert (Hn : (0 < length ports1)%nat).
    { apply index_ok in Hp0. apply nth_error_Some. congruence. }
    rewrite (index_firstn ports2 Hn).
    destruct (index ports2 0) as [q0|e]; cbn [bind]; [|reflexivity].
    rewrite (@mapM_same _ _
               (port_route (combine path (tl path)) (firstn (length ports1) ports2)
                  (orientation q0) (flip_offsets (orientation p0) a0)
                  (flip_offsets (orientation p0) a1))
               (port_route (combine path (tl path)) ports2
                  (orientation q0) (flip_offsets (orientation p0) a0)
                  (flip_offsets (orientation p0) a1))); [reflexivity|].
    intros i Hi. apply in_seq in Hi. rewrite !port_route_closed.
    unfold finish. rewrite index_firstn by lia. reflexivity.
Qed.

(** ** Diagonal segments *)

Lemma index_lt_nth {A : Type} (l : list A) (i : nat) :
  (i < length l)%nat -> exists a, nth_error l i = Some a.
Proof.
  intros H. destruct (nth_error l i) eqn:E; [eauto|]. apply nth_error_None in E. lia.
Qed.




(** ** Corners in closed form *)

Lemma displaced_start (seg d : segment) (a : Q) :
  _make_segment seg a = Ok d ->
  (_is_vertical seg = false ->
   py (fst d) = py (fst seg) + 1 * Qsign (px (snd seg) - px (fst seg)) * a)
  /\ (_is_horizontal seg = false ->
      px (fst d) = px (fst seg) + -1 * Qsign (py (snd seg) - py (fst seg)) * a).
Proof.
  rewrite make_segment_cases. destruct seg as [p0 p1]. cbn [fst snd].
  destruct (_is_horizontal (p0, p1)), (_is_vertical (p0, p1));
    intros H; try discriminate; injection H as <-; split; intros E;
    try discriminate; reflexivity.
Qed.

Lemma corner_value (ways : list segment) (o_start : Q) (om : list Q) (i j : nat)
    (c : point) (seg prev_seg : segment) (o_mid : Q) :
  (0 < j)%nat ->
  corner ways o_start om i j = Ok c ->
  nth_error ways j = Some seg ->
  nth_error ways (j - 1) = Some prev_seg ->
  nth_error om i = Some o_mid ->
  strict_segment seg = true ->
  strict_segment prev_seg = true ->
  c = corner_formula seg prev_seg o_mid (if (j =? 1)%nat then o_start else o_mid)
  /\ _is_horizontal prev_seg = negb (_is_horizontal seg).
Proof.
  intros Hj Hc Hseg Hprev Hom Hs Hs'.
  destruct (corner_pos _ _ _ _ Hj Hc)
    as (seg' & prev' & o_mid' & d & t & Hseg' & Hprev' & Hom' & Hd & Ht & Hi).
  assert (seg' = seg) by congruence. assert (prev' = prev_seg) by congruence.
  assert (o_mid' = o_mid) by congruence. subst seg' prev' o_mid'.
  destruct (make_segment_ok _ _ Hd) as (Hdh & Hdv & _).
  destruct (make_segment_ok _ _ Ht) as (Hth & Htv & _).
  destruct (displaced_start _ _ Hd) as [Hdy Hdx].
  destruct (displaced_start _ _ Ht) as [Hty Htx].
  destruct (intersection_spec _ _ Hi) as (sh & sv & Hrole & Hsh & Hsv & ->).
  unfold corner_formula.
  destruct (strict_cases _ Hs) as [[Hh Hv]|[Hh Hv]];
    destruct (strict_cases _ Hs') as [[Hh' Hv']|[Hh' Hv']];
    destruct Hrole as [[-> ->]|[-> ->]]; try congruence;
    rewrite Hh, Hh'; split; try reflexivity; cbn [px py fst snd].
  - rewrite (Htx Hh'), (Hdy Hv). reflexivity.
  - rewrite (Hdx Hh), (Hty Hv'). reflexivity.
Qed.

Lemma port_route_corner_formula (ways : list segment) (ports2 : list Port) (ea : Z)
    (os om : list Q) (i : nat) (raw : list point)
    (j : nat) (seg prev_seg : segment) (o_start o_mid : Q) :
  port_route ways ports2 ea os om i = Ok raw ->
  Forall (fun s => strict_segment s = true) ways ->
  (0 < j)%nat ->
  nth_error ways j = Some seg ->
  nth_error ways (j - 1) = Some prev_seg ->
  nth_error os i = Some o_start ->
  nth_error om i = Some o_mid ->
  let c := corner_formula seg prev_seg o_mid (if (j =? 1)%nat then o_start else o_mid) in
  _is_horizontal prev_seg = negb (_is_horizontal seg)
  /\ exists p2,
       nth_error ports2 i = Some p2
       /\ nth_error raw j
          = Some (if (j =? length ways - 1)%nat then snapped ea c (position p2) else c).
Proof.
  intros Hport Hstrict Hj Hseg Hprev Hos Hom c.
  assert (Hlt : (j < length ways)%nat) by (apply nth_error_Some; congruence).
  destruct (port_route_corners _ _ _ _ _ _ Hport)
    as [[-> _]|(o_start' & p2 & Hos' & Hp2 & _ & _ & Hc)]; [cbn in Hlt; lia|].
  assert (o_start' = o_start) by congruence. subst o_start'.
  destruct (Hc j Hlt) as (c' & Hcorner & Hnth).
  rewrite Forall_forall in Hstrict.
  destruct (@corner_value ways o_start om i j c' seg prev_seg o_mid Hj Hcorner Hseg Hprev Hom)
    as [Hceq Halt].
  - apply Hstrict. eapply nth_error_In; eassumption.
  - apply Hstrict. eapply nth_error_In; eassumption.
  - split; [assumption|]. exists p2. split; [assumption|]. subst c c'. exact Hnth.
Qed.

(** X14. On a path whose segments are each horizontal or vertical and not
    both, consecutive segments alternate, and the corner that the route of
    port [i] holds at index [j > 0] is given in closed form: its X is that
    of the vertical segment of the pair moved by [-sign * offset], its Y
    that of the horizontal one moved by [+sign * offset], the offset of
    segment [j] being the mid-path one and that of segment [j - 1] the start
    one when [j = 1]; the last corner is then snapped. *)
Theorem corner_closed_form (ways : list segment) (ports2 : list Port) (ea : Z)
    (os om : list Q) (i : nat) (raw : list point)
    (j : nat) (seg prev_seg : segment) (o_start o_mid : Q) :
  port_route ways ports2 ea os om i = Ok raw ->
  Forall (fun s => strict_segment s = true) ways ->
  (0 < j)%nat ->
  nth_error ways j = Some seg ->
  nth_error ways (j - 1) = Some prev_seg ->
  nth_error os i = Some o_start ->
  nth_error om i = Some o_mid ->
  let c := corner_formula seg prev_seg o_mid (if (j =? 1)%nat then o_start else o_mid) in
  _is_horizontal prev_seg = negb (_is_horizontal seg)
  /\ exists p2,
       nth_error ports2 i = Some p2
       /\ nth_error raw j
          = Some (if (j =? length ways - 1)%nat then snapped ea c (position p2) else c).
Proof.
  intros Hport Hstrict Hj Hseg Hprev Hos Hom.
  eapply port_route_corner_formula; eassumption.
Qed.

(** ** Signs of segments and routes with zero offsets *)

Lemma Qsign_cases (q : Q) : q == 0 \/ Qsign q = 1 \/ Qsign q = -1.
Proof.
  destruct q as [n d]. unfold Qsign, Qeq. cbn.
  destruct (Z.sgn_spec n) as [[Hn ->]|[[Hn ->]|[Hn ->]]]; [right; left|left|right; right];
    try reflexivity. lia.
Qed.

Lemma not_within_tol_nonzero (a b : Q) :
  Qltb (Qabs (a - b)) tol = false -> ~ b - a == 0.
Proof.
  intros H Hz. rewrite within_tol_zero in H; [discriminate|]. lra.
Qed.

Lemma unit_sign_x (s : segment) :
  _is_vertical s = false ->
  Qsign (px (snd s) - px (fst s)) = 1 \/ Qsign (px (snd s) - px (fst s)) = -1.
Proof.
  destruct s as [p0 p1]. unfold _is_vertical. cbn [fst snd]. intros H.
  apply not_within_tol_nonzero in H.
  destruct (Qsign_cases (px p1 - px p0)) as [Hz|Hs]; [contradiction|assumption].
Qed.

Lemma unit_sign_y (s : segment) :
  _is_horizontal s = false ->
  Qsign (py (snd s) - py (fst s)) = 1 \/ Qsign (py (snd s) - py (fst s)) = -1.
Proof.
  destruct s as [p0 p1]. unfold _is_horizontal. cbn [fst snd]. intros H.
  apply not_within_tol_nonzero in H.
  destruct (Qsign_cases (py p1 - py p0)) as [Hz|Hs]; [contradiction|assumption].
Qed.

Lemma nth_error_ways (path : list point) (j : nat) (s : segment) :
  nth_error (combine path (tl path)) j = Some s ->
  nth_error path j = Some (fst s) /\ nth_error path (S j) = Some (snd s).
Proof.
  revert j. induction path as [|p path IH]; intros j H; [destruct j; discriminate|].
  destruct path as [|q path]; [destruct j; discriminate|].
  destruct j as [|j].
  - cbn in H. injection H as <-. cbn. auto.
  - cbn [tl combine nth_error] in H.
    destruct (IH j H) as [H1 H2]. cbn [nth_error]. auto.
Qed.

(** X16. The route of a port whose start and mid-path offsets are zero
    follows the waypoint path: on a path of segments that are each
    horizontal or vertical and not both, each of its corners between the
    first point and the snapped corner lies within the tolerance of the
    waypoint of the same index. *)
Theorem zero_offset_route_follows_path (path : list point) (ports2 : list Port) (ea : Z)
    (os om : list Q) (i : nat) (raw : list point) (o o' : Q)
    (j : nat) (w c : point) :
  port_route (combine path (tl path)) ports2 ea os om i = Ok raw ->
  Forall (fun s => strict_segment s = true) (combine path (tl path)) ->
  nth_error os i = Some o -> o == 0 ->
  nth_error om i = Some o' -> o' == 0 ->
  (0 < j < @length segment (combine path (tl path)) - 1)%nat ->
  nth_error path j = Some w ->
  nth_error raw j = Some c ->
  near c w.
Proof.
  intros Hport Hstrict Hos Ho Hom Ho' Hj Hw Hc.
  assert (Hlt : (j < @length segment (combine path (tl path)))%nat) by lia.
  assert (Hlt' : (j - 1 < @length segment (combine path (tl path)))%nat) by lia.
  destruct (index_lt_nth _ Hlt) as [seg Hseg].
  destruct (index_lt_nth _ Hlt') as [prev Hprev].
  destruct (nth_error_ways path _ Hseg) as [Hw1 _].
  destruct (nth_error_ways path _ Hprev) as [_ Hw2].
  replace (S (j - 1)) with j in Hw2 by lia.
  remember (combine path (tl path)) as ways eqn:Eways. clear Eways.
  assert (Hj0 : (0 < j)%nat) by lia.
  destruct (@port_route_corner_formula ways ports2 ea os om i raw j seg prev o o'
              Hport Hstrict Hj0 Hseg Hprev Hos Hom) as (Halt & p2 & _ & Hn).
  replace (j =? @length segment ways - 1)%nat with false in Hn
    by (symmetry; apply Nat.eqb_neq; lia).
  rewrite Hc in Hn. injection Hn as ->.
  assert (Hfw : fst seg = w) by congruence.
  assert (Hsw : snd prev = w) by congruence.
  assert (Hpo : (if (j =? 1)%nat then o else o') == 0) by (destruct (j =? 1)%nat; assumption).
  rewrite Forall_forall in Hstrict.
  assert (Hs : strict_segment seg = true) by (apply Hstrict; eapply nth_error_In; eassumption).
  assert (Hs' : strict_segment prev = true)
    by (apply Hstrict; eapply nth_error_In; eassumption).
  unfold near, corner_formula.
  destruct (strict_cases _ Hs) as [[Hh Hv]|[Hh Hv]];
    destruct (strict_cases _ Hs') as [[Hh' Hv']|[Hh' Hv']];
    rewrite Hh, Hh' in Halt; try discriminate Halt; rewrite Hh; cbn [px py fst snd].
  - split.
    + apply Qltb_lt. rewrite <- Hv'. destruct prev as [p0 p1]. cbn [fst snd] in Hsw |- *.
      subst p1. unfold _is_vertical. apply Qltb_compat. apply Qabs_wd. rewrite Hpo. ring.
    + apply Qltb_lt. apply within_tol_zero. rewrite Hfw, Ho'. ring.
  - split.
    + apply Qltb_lt. apply within_tol_zero. rewrite Hfw, Ho'. ring.
    + apply Qltb_lt. rewrite <- Hh'. destruct prev as [p0 p1]. cbn [fst snd] in Hsw |- *.
      subst p1. unfold _is_horizontal. apply Qltb_compat. apply Qabs_wd. rewrite Hpo. ring.
Qed.

(** ** Separation, empty bundles and signs *)

Lemma supplied_zero (sep : Q) : sep == 0 -> supplied (Some sep) = None.
Proof. intros H. unfold supplied. rewrite (Qeq_bool_true H). reflexivity. Qed.

(** X17. A separation of zero is no separation: the kernel does with it
    what it does without one, the mid-path offsets being the start offsets.
    With a separation other than zero there is one mid-path offset per
    port, and no offset at all to start from is an index error. *)
Theorem separation_zero_or_not (sep : Q) :
  (sep == 0 ->
   (forall os, mid_offsets (Some sep) os = Ok os)
   /\ (forall gpa rfa ports1 ports2 waypoints,
         _generate_manhattan_bundle_waypoints gpa rfa ports1 ports2 waypoints (Some sep)
         = _generate_manhattan_bundle_waypoints gpa rfa ports1 ports2 waypoints None))
  /\ (~ sep == 0 ->
      mid_offsets (Some sep) [] = Error IndexError
      /\ (forall os om, mid_offsets (Some sep) os = Ok om -> length om = length os)).
Proof.
  split.
  - intros Hz.
    assert (Hmid : forall os, mid_offsets (Some sep) os = mid_offsets None os).
    { intros os. unfold mid_offsets. rewrite (supplied_zero Hz). reflexivity. }
    split; [intros os; rewrite Hmid; reflexivity|].
    intros gpa rfa ports1 ports2 waypoints. unfold _generate_manhattan_bundle_waypoints.
    destruct (rfa waypoints); cbn [bind]; [|reflexivity].
    destruct (index a 0); cbn [bind]; [|reflexivity].
    destruct (get_ports_x_or_y_distances gpa ports1 a0); cbn [bind]; [|reflexivity].
    rewrite Hmid. reflexivity.
  - intros Hnz. split.
    + unfold mid_offsets. rewrite (supplied_nonzero Hnz). reflexivity.
    + intros os om. apply mid_offsets_length.
Qed.

(** X18. Without a port in the first bundle the kernel fails with an index
    error, with or without a separation, as soon as the normalized path has
    a point; the orientation of the bundle is not even asked for. *)
Theorem empty_bundle_fails (gpa : list Port -> result Z)
    (rfa : list point -> result (list point)) (ports2 : list Port)
    (waypoints : list point) (separation : option Q) (path : list point) :
  rfa waypoints = Ok path ->
  path <> [] ->
  _generate_manhattan_bundle_waypoints gpa rfa [] ports2 waypoints separation
  = Error IndexError.
Proof.
  intros Hpath Hne. unfold _generate_manhattan_bundle_waypoints.
  rewrite Hpath. cbn [bind]. destruct path as [|w path]; [contradiction|].
  cbn [index nth_error bind get_ports_x_or_y_distances].
  unfold mid_offsets. destruct (supplied separation); reflexivity.
Qed.

(** X19. [_segment_sign] answers exactly on the segments that are
    horizontal or vertical within the tolerance, with -1, 0 or 1; on a
    segment that is one and not the other it is never 0, and walking the
    segment backwards changes its sign. *)
Theorem segment_sign_values (s : segment) :
  (_segment_sign s = None <-> manhattan_segment s = false)
  /\ (forall sg, _segment_sign s = Some sg ->
        (sg = 1 \/ sg = 0 \/ sg = -1)
        /\ (strict_segment s = true -> sg = 1 \/ sg = -1)
        /\ _segment_sign (reversed s) = Some (- sg)).
Proof.
  split.
  - unfold _segment_sign, manhattan_segment. destruct s as [p0 p1].
    destruct (_is_vertical (p0, p1)), (_is_horizontal (p0, p1)); cbn;
      split; intros H; try reflexivity; discriminate.
  - intros sg Hsg. split; [|split; [|apply reversed_sign; assumption]].
    + unfold _segment_sign in Hsg. destruct s as [p0 p1].
      assert (Hz : forall z, Qsign z = 1 \/ Qsign z = 0 \/ Qsign z = -1).
      { intros [n d]. unfold Qsign. cbn.
        destruct (Z.sgn_spec n) as [[_ ->]|[[_ ->]|[_ ->]]]; auto. }
      destruct (_is_vertical (p0, p1)); [injection Hsg as <-; apply Hz|].
      destruct (_is_horizontal (p0, p1)); [injection Hsg as <-; apply Hz|discriminate].
    + intros Hstrict. unfold _segment_sign in Hsg.
      destruct (strict_cases _ Hstrict) as [[Hh Hv]|[Hh Hv]];
        pose proof (unit_sign_x s) as Hx; pose proof (unit_sign_y s) as Hy;
        destruct s as [p0 p1]; rewrite Hh, Hv in Hsg; cbn [fst snd] in *;
        injection Hsg as <-; auto.
Qed.

(** ** The further properties at work on the sample inputs *)

Lemma snap_last_two_witness :
  exists front c e,
    [pt 0 10; pt 40 10; pt 40 55; pt 100 70] = front ++ [c; e]
    /\ snap_route_to_end_point_x [pt 0 10; pt 40 10; pt 40 55; pt 100 70] 100
       = Ok (front ++ [(100, py c); (100, py e)])
    /\ snap_route_to_end_point_y [pt 0 10; pt 40 10; pt 40 55; pt 100 70] 100
       = Ok (front ++ [(px c, 100); (px e, 100)])
    /\ length (front ++ [(100, py c); (100, py e)]) = 4%nat
    /\ length (front ++ [(px c, 100); (px e, 100)]) = 4%nat.
Proof.
  apply (proj2 (snap_last_two [pt 0 10; pt 40 10; pt 40 55; pt 100 70] 100)).
  cbn. lia.
Defined.

Lemma snap_compose_witness :
  (r <- snap_route_to_end_point_x [pt 0 10; pt 40 55; pt 100 70] 100 ;;
   snap_route_to_end_point_y r 70)
  = Ok ([pt 0 10] ++ [(100, 70); (100, 70)]).
Proof.
  apply (proj2 (proj2 (proj2 (snap_compose [pt 0 10; pt 40 55; pt 100 70] 100 70)))
           [pt 0 10] (pt 40 55) (pt 100 70)).
  reflexivity.
Defined.

Lemma sort_keys_domain_witness :
  exists k2, lookup_sorttypes (0, 180)%Z
             = Ok (if angle_in 0 [0; 180]%Z then SortY else SortX, k2).
Proof.
  apply (proj1 (sort_keys_domain 0 180)). reflexivity.
Defined.

Lemma entry_failures_witness :
  sample_bundle (mkWorld turned_ports [] []) [] true None
  = (Error IndexError, mkWorld turned_ports [] [])
  /\ sample_bundle slanted_world [] true None
     = (Error KeyError,
        mkWorld (normalize_angles [1%nat] (normalize_angles [0%nat] slanted_ports))
                [0%nat] [1%nat])
  /\ (int (obj_angle (slanted_ports 0%nat)) mod 360 = 45)%Z.
Proof.
  split; [|split; [|reflexivity]].
  - apply (proj1 (@entry_failures bundle_angle normalize_path unit unit unit (list point)
                    (Ok tt) (Ok tt) (fun _ _ => Ok None) (fun pts _ _ => Ok pts)
                    (mkWorld turned_ports [] []) [] true None)); reflexivity.
  - apply (proj2 (@entry_failures bundle_angle normalize_path unit unit unit (list point)
                    (Ok tt) (Ok tt) (fun _ _ => Ok None) (fun pts _ _ => Ok pts)
                    slanted_world [] true None) 0%nat 1%nat); reflexivity.
Defined.

Lemma entry_sorts_bundles_witness :
  ascending
    (fun a => dict_sorts SortY
                (port_of (ports (snd (sample_bundle turned_world [] true None)) a)))
    (bundle1 (snd (sample_bundle turned_world [] true None))).
Proof.
  apply (proj1 (proj2 (proj2 (proj2
           (@entry_sorts_bundles bundle_angle normalize_path unit unit unit (list point)
              (Ok tt) (Ok tt) (fun _ _ => Ok None) (fun pts _ _ => Ok pts)
              turned_world [] None)))
           0%nat 2%nat SortY SortY eq_refl eq_refl eq_refl eq_refl)).
Defined.

Lemma displacement_of_reversed_witness :
  exists d', _make_segment (reversed (pt 0 0, pt 50 0)) (- 10) = Ok d'
             /\ segment_eq d' (reversed (pt 0 10, pt 50 10)).
Proof.
  apply (@displacement_of_reversed (pt 0 0, pt 50 0) (pt 0 10, pt 50 10) 10 eq_refl).
Defined.

Lemma intersection_symmetric_witness :
  _intersection (pt 0 0, pt 50 0) (pt 50 0, pt 50 50)
  = _intersection (pt 50 0, pt 50 50) (pt 0 0, pt 50 0).
Proof.
  apply intersection_symmetric. reflexivity.
Defined.

Lemma distances_facts_witness :
  exists o, nth_error [0 - 0; 10 - 0] 0 = Some o /\ o == 0.
Proof.
  apply (proj2 (proj2 (distances_facts bundle_angle))
           sample_ports1 (pt 0 0) [0 - 0; 10 - 0] 0%nat (port_at 0 0 0));
    reflexivity.
Defined.

Lemma routes_have_path_length_witness :
  (2 <= length sample_waypoints)%nat
  /\ sample_routes <> []
  /\ Forall (fun route => length route = length sample_waypoints) sample_routes.
Proof.
  apply (@routes_have_path_length bundle_angle normalize_path sample_ports1 sample_ports2
           sample_waypoints None sample_routes sample_waypoints); reflexivity.
Defined.

Lemma kernel_second_bundle_witness : (length sample_ports1 <= length sample_ports2)%nat.
Proof.
  apply (proj1 (@kernel_second_bundle bundle_angle normalize_path sample_ports1
                  sample_ports2 sample_waypoints None) sample_routes).
  reflexivity.
Defined.


Lemma corner_closed_form_witness :
  exists p2,
    nth_error sample_ports2 1 = Some p2
    /\ nth_error [pt 0 10; pt 40 10; pt 40 70; pt 100 70] 1
       = Some (if (1 =? length sample_ways - 1)%nat
               then snapped 180
                      (corner_formula (pt 50 0, pt 50 50) (pt 0 0, pt 50 0) 10
                         (if (1 =? 1)%nat then 10 else 10))
                      (position p2)
               else corner_formula (pt 50 0, pt 50 50) (pt 0 0, pt 50 0) 10
                      (if (1 =? 1)%nat then 10 else 10)).
Proof.
  apply (@corner_closed_form sample_ways sample_ports2 180%Z [0; 10] [0; 10] 1%nat
           [pt 0 10; pt 40 10; pt 40 70; pt 100 70] 1%nat
           (pt 50 0, pt 50 50) (pt 0 0, pt 50 0) 10 10); try reflexivity.
  - repeat constructor.
  - apply le_n.
Defined.

Lemma zero_offset_route_follows_path_witness : near (pt 50 0) (pt 50 0).
Proof.
  apply (@zero_offset_route_follows_path sample_waypoints sample_ports2 180%Z
           [0; 10] [0; 10] 0%nat [pt 0 0; pt 50 0; pt 50 50; pt 100 50] 0 0
           1%nat (pt 50 0) (pt 50 0)); try reflexivity.
  - repeat constructor.
  - cbn. lia.
Defined.

Lemma separation_zero_or_not_witness : mid_offsets (Some 0) [3; 7] = Ok [3; 7].
Proof.
  apply (proj1 (proj1 (separation_zero_or_not 0) (Qeq_refl 0))).
Defined.

Lemma empty_bundle_fails_witness :
  generate [] sample_ports2 sample_waypoints (Some 5) = Error IndexError.
Proof.
  apply (@empty_bundle_fails bundle_angle normalize_path sample_ports2 sample_waypoints
           (Some 5) sample_waypoints); [reflexivity|discriminate].
Defined.

Lemma segment_sign_values_witness :
  _segment_sign (reversed (pt 0 0, pt 50 0)) = Some (- 1).
Proof.
  apply (proj2 (proj2 (proj2 (segment_sign_values (pt 0 0, pt 50 0)) 1 eq_refl))).
Defined.
